(** * Museqa / msa: pairwise scoring, distance matrix, neighbor-joining
      reducer and pipeline runner.

    A shallow embedding of the parts of the aligner that the specification
    makes statements about:

    - [divceil] and [align]               (pairwise.cuh, first revision),
    - the scoring table catalog           (pairwise/table.cu),
    - the sequential Needleman-Wunsch     (pairwise/needleman/sequential),
    - the distance-matrix accessors       (pairwise.hpp, two revisions),
    - the neighbor-joining reducer        (phylogeny/njoining/njoining.cpp),
    - the pipeline runner                 (pipeline.hpp).

    Conventions.  [size_t] indices are [nat]; the 32-bit [int] of the first
    revision is a [Z] with its wrap-around written out; [score] is a [float]
    in the source, and every score that occurs here is an integer of small
    magnitude, on which float arithmetic is exact, so scores are [Z].  A
    buffer is a [list] read with [!!] and written with a checked store, and a
    read or write outside the buffer is [None]. *)

From Stdlib Require Import ZArith Lia.
From stdpp Require Import base option list strings gmap.

Local Open Scope Z_scope.

(** ** Exceptions *)

(** [museqa::exception] carries a formatted message. *)
Record exception : Type := Exception { what : string }.

(** A computation that either returns or throws. *)
Inductive result (A : Type) : Type :=
| Return (a : A)
| Throw (e : exception).
Arguments Return {A} a.
Arguments Throw {A} e.

(** ** The alphabet *)

(** Modelled from the spec: the 25-symbol alphabet of encoded sequences
    (sequence.hpp and encoder.hpp are not part of the sources at hand), in the
    order of the rows and columns of the scoring tables in table.cu. *)
Inductive symbol : Type :=
| sA | sC | sT | sG | sR | sN | sD | sQ | sE | sH | sI | sL | sK
| sM | sF | sP | sS | sW | sY | sV | sB | sJ | sZ | sX | sPad.

(** The code of a symbol is its row (and column) in a scoring table. *)
Definition code (c : symbol) : nat :=
  match c with
  | sA => 0 | sC => 1 | sT => 2 | sG => 3 | sR => 4 | sN => 5 | sD => 6
  | sQ => 7 | sE => 8 | sH => 9 | sI => 10 | sL => 11 | sK => 12 | sM => 13
  | sF => 14 | sP => 15 | sS => 16 | sW => 17 | sY => 18 | sV => 19
  | sB => 20 | sJ => 21 | sZ => 22 | sX => 23 | sPad => 24
  end%nat.

#[global] Instance symbol_eq_dec : EqDecision symbol.
Proof. solve_decision. Defined.

(** [sequence::padding], the end-of-sequence symbol [*]. *)
Definition padding : symbol := sPad.

(** A sequence is the list of its symbols; [length] counts the padding
    symbols of its tail as well. *)
Abbreviation sequence := (list symbol).

(** ** Scoring tables (pairwise/table.cu) *)

Abbreviation score := Z.

(** [scoring_table::raw_type], a 25 x 25 array of scores, row by row. *)
Abbreviation table_type := (list (list score)).

(** [table_data[0]]: default. *)
Definition table_default : table_type :=
  (*  A   C   T   G   R   N   D   Q   E   H   I   L   K   M   F   P   S   W   Y   V   B   J   Z   X   *  *)
  [ [  1; -1; -1; -1; -1; -1; -1; -1; -1; -1; -1; -1; -1; -1; -1; -1; -1; -1; -1; -1; -1; -1; -1; -1; -1]
  ; [ -1;  1; -1; -1; -1; -1; -1; -1; -1; -1; -1; -1; -1; -1; -1; -1; -1; -1; -1; -1; -1; -1; -1; -1; -1]
  ; [ -1; -1;  1; -1; -1; -1; -1; -1; -1; -1; -1; -1; -1; -1; -1; -1; -1; -1; -1; -1; -1; -1; -1; -1; -1]
  ; [ -1; -1; -1;  1; -1; -1; -1; -1; -1; -1; -1; -1; -1; -1; -1; -1; -1; -1; -1; -1; -1; -1; -1; -1; -1]
  ; [ -1; -1; -1; -1;  1; -1; -1; -1; -1; -1; -1; -1; -1; -1; -1; -1; -1; -1; -1; -1; -1; -1; -1; -1; -1]
  ; [ -1; -1; -1; -1; -1;  1; -1; -1; -1; -1; -1; -1; -1; -1; -1; -1; -1; -1; -1; -1; -1; -1; -1; -1; -1]
  ; [ -1; -1; -1; -1; -1; -1;  1; -1; -1; -1; -1; -1; -1; -1; -1; -1; -1; -1; -1; -1; -1; -1; -1; -1; -1]
  ; [ -1; -1; -1; -1; -1; -1; -1;  1; -1; -1; -1; -1; -1; -1; -1; -1; -1; -1; -1; -1; -1; -1; -1; -1; -1]
  ; [ -1; -1; -1; -1; -1; -1; -1; -1;  1; -1; -1; -1; -1; -1; -1; -1; -1; -1; -1; -1; -1; -1; -1; -1; -1]
  ; [ -1; -1; -1; -1; -1; -1; -1; -1; -1;  1; -1; -1; -1; -1; -1; -1; -1; -1; -1; -1; -1; -1; -1; -1; -1]
  ; [ -1; -1; -1; -1; -1; -1; -1; -1; -1; -1;  1; -1; -1; -1; -1; -1; -1; -1; -1; -1; -1; -1; -1; -1; -1]
  ; [ -1; -1; -1; -1; -1; -1; -1; -1; -1; -1; -1;  1; -1; -1; -1; -1; -1; -1; -1; -1; -1; -1; -1; -1; -1]
  ; [ -1; -1; -1; -1; -1; -1; -1; -1; -1; -1; -1; -1;  1; -1; -1; -1; -1; -1; -1; -1; -1; -1; -1; -1; -1]
  ; [ -1; -1; -1; -1; -1; -1; -1; -1; -1; -1; -1; -1; -1;  1; -1; -1; -1; -1; -1; -1; -1; -1; -1; -1; -1]
  ; [ -1; -1; -1; -1; -1; -1; -1; -1; -1; -1; -1; -1; -1; -1;  1; -1; -1; -1; -1; -1; -1; -1; -1; -1; -1]
  ; [ -1; -1; -1; -1; -1; -1; -1; -1; -1; -1; -1; -1; -1; -1; -1;  1; -1; -1; -1; -1; -1; -1; -1; -1; -1]
  ; [ -1; -1; -1; -1; -1; -1; -1; -1; -1; -1; -1; -1; -1; -1; -1; -1;  1; -1; -1; -1; -1; -1; -1; -1; -1]
  ; [ -1; -1; -1; -1; -1; -1; -1; -1; -1; -1; -1; -1; -1; -1; -1; -1; -1;  1; -1; -1; -1; -1; -1; -1; -1]
  ; [ -1; -1; -1; -1; -1; -1; -1; -1; -1; -1; -1; -1; -1; -1; -1; -1; -1; -1;  1; -1; -1; -1; -1; -1; -1]
  ; [ -1; -1; -1; -1; -1; -1; -1; -1; -1; -1; -1; -1; -1; -1; -1; -1; -1; -1; -1;  1; -1; -1; -1; -1; -1]
  ; [ -1; -1; -1; -1; -1; -1; -1; -1; -1; -1; -1; -1; -1; -1; -1; -1; -1; -1; -1; -1;  1; -1; -1; -1; -1]
  ; [ -1; -1; -1; -1; -1; -1; -1; -1; -1; -1; -1; -1; -1; -1; -1; -1; -1; -1; -1; -1; -1;  1; -1; -1; -1]
  ; [ -1; -1; -1; -1; -1; -1; -1; -1; -1; -1; -1; -1; -1; -1; -1; -1; -1; -1; -1; -1; -1; -1;  1; -1; -1]
  ; [ -1; -1; -1; -1; -1; -1; -1; -1; -1; -1; -1; -1; -1; -1; -1; -1; -1; -1; -1; -1; -1; -1; -1; -1; -1]
  ; [ -1; -1; -1; -1; -1; -1; -1; -1; -1; -1; -1; -1; -1; -1; -1; -1; -1; -1; -1; -1; -1; -1; -1; -1;  0]
  ].

(** [table_data[1]]: blosum62. *)
Definition table_blosum62 : table_type :=
  (*  A   C   T   G   R   N   D   Q   E   H   I   L   K   M   F   P   S   W   Y   V   B   J   Z   X   *  *)
  [ [  4;  0;  0;  0; -1; -2; -2; -1; -1; -2; -1; -1; -1; -1; -2; -1;  1; -3; -2;  0; -2; -1; -1; -1; -4]
  ; [  0;  9; -1; -3; -3; -3; -3; -3; -4; -3; -1; -1; -3; -1; -2; -3; -1; -2; -2; -1; -3; -1; -3; -1; -4]
  ; [  0; -1;  5; -2; -1;  0; -1; -1; -1; -2; -1; -1; -1; -1; -2; -1;  1; -2; -2;  0; -1; -1; -1; -1; -4]
  ; [  0; -3; -2;  6; -2;  0; -1; -2; -2; -2; -4; -4; -2; -3; -3; -2;  0; -2; -3; -3; -1; -4; -2; -1; -4]
  ; [ -1; -3; -1; -2;  5;  0; -2;  1;  0;  0; -3; -2;  2; -1; -3; -2; -1; -3; -2; -3; -1; -2;  0; -1; -4]
  ; [ -2; -3;  0;  0;  0;  6;  1;  0;  0;  1; -3; -3;  0; -2; -3; -2;  1; -4; -2; -3;  4; -3;  0; -1; -4]
  ; [ -2; -3; -1; -1; -2;  1;  6;  0;  2; -1; -3; -4; -1; -3; -3; -1;  0; -4; -3; -3;  4; -3;  1; -1; -4]
  ; [ -1; -3; -1; -2;  1;  0;  0;  5;  2;  0; -3; -2;  1;  0; -3; -1;  0; -2; -1; -2;  0; -2;  4; -1; -4]
  ; [ -1; -4; -1; -2;  0;  0;  2;  2;  5;  0; -3; -3;  1; -2; -3; -1;  0; -3; -2; -2;  1; -3;  4; -1; -4]
  ; [ -2; -3; -2; -2;  0;  1; -1;  0;  0;  8; -3; -3; -1; -2; -1; -2; -1; -2;  2; -3;  0; -3;  0; -1; -4]
  ; [ -1; -1; -1; -4; -3; -3; -3; -3; -3; -3;  4;  2; -3;  1;  0; -3; -2; -3; -1;  3; -3;  3; -3; -1; -4]
  ; [ -1; -1; -1; -4; -2; -3; -4; -2; -3; -3;  2;  4; -2;  2;  0; -3; -2; -2; -1;  1; -4;  3; -3; -1; -4]
  ; [ -1; -3; -1; -2;  2;  0; -1;  1;  1; -1; -3; -2;  5; -1; -3; -1;  0; -3; -2; -2;  0; -3;  1; -1; -4]
  ; [ -1; -1; -1; -3; -1; -2; -3;  0; -2; -2;  1;  2; -1;  5;  0; -2; -1; -1; -1;  1; -3;  2; -1; -1; -4]
  ; [ -2; -2; -2; -3; -3; -3; -3; -3; -3; -1;  0;  0; -3;  0;  6; -4; -2;  1;  3; -1; -3;  0; -3; -1; -4]
  ; [ -1; -3; -1; -2; -2; -2; -1; -1; -1; -2; -3; -3; -1; -2; -4;  7; -1; -4; -3; -2; -2; -3; -1; -1; -4]
  ; [  1; -1;  1;  0; -1;  1;  0;  0;  0; -1; -2; -2;  0; -1; -2; -1;  4; -3; -2; -2;  0; -2;  0; -1; -4]
  ; [ -3; -2; -2; -2; -3; -4; -4; -2; -3; -2; -3; -2; -3; -1;  1; -4; -3; 11;  2; -3; -4; -2; -2; -1; -4]
  ; [ -2; -2; -2; -3; -2; -2; -3; -1; -2;  2; -1; -1; -2; -1;  3; -3; -2;  2;  7; -1; -3; -1; -2; -1; -4]
  ; [  0; -1;  0; -3; -3; -3; -3; -2; -2; -3;  3;  1; -2;  1; -1; -2; -2; -3; -1;  4; -3;  2; -2; -1; -4]
  ; [ -2; -3; -1; -1; -1;  4;  4;  0;  1;  0; -3; -4;  0; -3; -3; -2;  0; -4; -3; -3;  4; -3;  0; -1; -4]
  ; [ -1; -1; -1; -4; -2; -3; -3; -2; -3; -3;  3;  3; -3;  2;  0; -3; -2; -2; -1;  2; -3;  3; -3; -1; -4]
  ; [ -1; -3; -1; -2;  0;  0;  1;  4;  4;  0; -3; -3;  1; -1; -3; -1;  0; -2; -2; -2;  0; -3;  4; -1; -4]
  ; [ -1; -1; -1; -1; -1; -1; -1; -1; -1; -1; -1; -1; -1; -1; -1; -1; -1; -1; -1; -1; -1; -1; -1; -1; -4]
  ; [ -4; -4; -4; -4; -4; -4; -4; -4; -4; -4; -4; -4; -4; -4; -4; -4; -4; -4; -4; -4; -4; -4; -4; -4;  0]
  ].

(** [table_data[2]]: blosum45. *)
Definition table_blosum45 : table_type :=
  (*  A   C   T   G   R   N   D   Q   E   H   I   L   K   M   F   P   S   W   Y   V   B   J   Z   X   *  *)
  [ [  5; -1;  0; -1; -2; -1; -2; -1;  0; -2; -1; -1; -1; -1; -2; -1;  1; -2; -2;  0; -1; -1; -1; -1; -5]
  ; [ -1; 12; -1; -3; -3; -2; -3; -3; -3; -3; -3; -2; -3; -2; -2; -4; -1; -5; -3; -1; -2; -2; -3; -1; -5]
  ; [  0; -1;  5; -1; -1;  0; -1; -1; -2; -2; -1; -1; -1; -1; -1; -1;  2; -3; -1;  0;  0; -1; -1; -1; -5]
  ; [ -1; -3; -1;  6;  0;  0;  2;  2; -2;  0; -3; -2;  1; -2; -3;  0;  0; -3; -2; -3;  1; -3;  5; -1; -5]
  ; [ -2; -3; -1;  0;  7;  0; -1;  1; -2;  0; -3; -2;  3; -1; -2; -2; -1; -2; -1; -2; -1; -3;  1; -1; -5]
  ; [ -1; -2;  0;  0;  0;  6;  2;  0;  0;  1; -2; -3;  0; -2; -2; -2;  1; -4; -2; -3;  5; -3;  0; -1; -5]
  ; [ -2; -3; -1;  2; -1;  2;  7;  0; -1;  0; -4; -3;  0; -3; -4; -1;  0; -4; -2; -3;  6; -3;  1; -1; -5]
  ; [ -1; -3; -1;  2;  1;  0;  0;  6; -2;  1; -2; -2;  1;  0; -4; -1;  0; -2; -1; -3;  0; -2;  4; -1; -5]
  ; [  0; -3; -2; -2; -2;  0; -1; -2;  7; -2; -4; -3; -2; -2; -3; -2;  0; -2; -3; -3; -1; -4; -2; -1; -5]
  ; [ -2; -3; -2;  0;  0;  1;  0;  1; -2; 10; -3; -2; -1;  0; -2; -2; -1; -3;  2; -3;  0; -2;  0; -1; -5]
  ; [ -1; -3; -1; -3; -3; -2; -4; -2; -4; -3;  5;  2; -3;  2;  0; -2; -2; -2;  0;  3; -3;  4; -3; -1; -5]
  ; [ -1; -2; -1; -2; -2; -3; -3; -2; -3; -2;  2;  5; -3;  2;  1; -3; -3; -2;  0;  1; -3;  4; -2; -1; -5]
  ; [ -1; -3; -1;  1;  3;  0;  0;  1; -2; -1; -3; -3;  5; -1; -3; -1; -1; -2; -1; -2;  0; -3;  1; -1; -5]
  ; [ -1; -2; -1; -2; -1; -2; -3;  0; -2;  0;  2;  2; -1;  6;  0; -2; -2; -2;  0;  1; -2;  2; -1; -1; -5]
  ; [ -2; -2; -1; -3; -2; -2; -4; -4; -3; -2;  0;  1; -3;  0;  8; -3; -2;  1;  3;  0; -3;  1; -3; -1; -5]
  ; [ -1; -4; -1;  0; -2; -2; -1; -1; -2; -2; -2; -3; -1; -2; -3;  9; -1; -3; -3; -3; -2; -3; -1; -1; -5]
  ; [  1; -1;  2;  0; -1;  1;  0;  0;  0; -1; -2; -3; -1; -2; -2; -1;  4; -4; -2; -1;  0; -2;  0; -1; -5]
  ; [ -2; -5; -3; -3; -2; -4; -4; -2; -2; -3; -2; -2; -2; -2;  1; -3; -4; 15;  3; -3; -4; -2; -2; -1; -5]
  ; [ -2; -3; -1; -2; -1; -2; -2; -1; -3;  2;  0;  0; -1;  0;  3; -3; -2;  3;  8; -1; -2;  0; -2; -1; -5]
  ; [  0; -1;  0; -3; -2; -3; -3; -3; -3; -3;  3;  1; -2;  1;  0; -3; -1; -3; -1;  5; -3;  2; -3; -1; -5]
  ; [ -1; -2;  0;  1; -1;  5;  6;  0; -1;  0; -3; -3;  0; -2; -3; -2;  0; -4; -2; -3;  5; -3;  1; -1; -5]
  ; [ -1; -2; -1; -3; -3; -3; -3; -2; -4; -2;  4;  4; -3;  2;  1; -3; -2; -2;  0;  2; -3;  4; -2; -1; -5]
  ; [ -1; -3; -1;  5;  1;  0;  1;  4; -2;  0; -3; -2;  1; -1; -3; -1;  0; -2; -2; -3;  1; -2;  5; -1; -5]
  ; [ -1; -1; -1; -1; -1; -1; -1; -1; -1; -1; -1; -1; -1; -1; -1; -1; -1; -1; -1; -1; -1; -1; -1; -1; -5]
  ; [ -5; -5; -5; -5; -5; -5; -5; -5; -5; -5; -5; -5; -5; -5; -5; -5; -5; -5; -5; -5; -5; -5; -5; -5;  0]
  ].

(** [table_data[3]]: blosum50. *)
Definition table_blosum50 : table_type :=
  (*  A   C   T   G   R   N   D   Q   E   H   I   L   K   M   F   P   S   W   Y   V   B   J   Z   X   *  *)
  [ [  5; -1; -3; -2; -2; -1; -2; -1; -1;  0; -1; -2; -1; -1; -3; -1;  1;  0; -2;  0; -2; -2; -1; -1; -5]
  ; [ -1; 13; -5; -3; -4; -2; -4; -3; -3; -3; -2; -2; -3; -2; -2; -4; -1; -1; -3; -1; -3; -2; -3; -1; -5]
  ; [ -3; -5; 15; -3; -3; -4; -5; -1; -3; -3; -3; -2; -3; -1;  1; -4; -4; -3;  2; -3; -5; -2; -2; -1; -5]
  ; [ -2; -3; -3; 10;  0;  1; -1;  1;  0; -2; -4; -3;  0; -1; -1; -2; -1; -2;  2; -4;  0; -3;  0; -1; -5]
  ; [ -2; -4; -3;  0;  7; -1; -2;  1;  0; -3; -4; -3;  3; -2; -3; -3; -1; -1; -1; -3; -1; -3;  0; -1; -5]
  ; [ -1; -2; -4;  1; -1;  7;  2;  0;  0;  0; -3; -4;  0; -2; -4; -2;  1;  0; -2; -3;  5; -4;  0; -1; -5]
  ; [ -2; -4; -5; -1; -2;  2;  8;  0;  2; -1; -4; -4; -1; -4; -5; -1;  0; -1; -3; -4;  6; -4;  1; -1; -5]
  ; [ -1; -3; -1;  1;  1;  0;  0;  7;  2; -2; -3; -2;  2;  0; -4; -1;  0; -1; -1; -3;  0; -3;  4; -1; -5]
  ; [ -1; -3; -3;  0;  0;  0;  2;  2;  6; -3; -4; -3;  1; -2; -3; -1; -1; -1; -2; -3;  1; -3;  5; -1; -5]
  ; [  0; -3; -3; -2; -3;  0; -1; -2; -3;  8; -4; -4; -2; -3; -4; -2;  0; -2; -3; -4; -1; -4; -2; -1; -5]
  ; [ -1; -2; -3; -4; -4; -3; -4; -3; -4; -4;  5;  2; -3;  2;  0; -3; -3; -1; -1;  4; -4;  4; -3; -1; -5]
  ; [ -2; -2; -2; -3; -3; -4; -4; -2; -3; -4;  2;  5; -3;  3;  1; -4; -3; -1; -1;  1; -4;  4; -3; -1; -5]
  ; [ -1; -3; -3;  0;  3;  0; -1;  2;  1; -2; -3; -3;  6; -2; -4; -1;  0; -1; -2; -3;  0; -3;  1; -1; -5]
  ; [ -1; -2; -1; -1; -2; -2; -4;  0; -2; -3;  2;  3; -2;  7;  0; -3; -2; -1;  0;  1; -3;  2; -1; -1; -5]
  ; [ -3; -2;  1; -1; -3; -4; -5; -4; -3; -4;  0;  1; -4;  0;  8; -4; -3; -2;  4; -1; -4;  1; -4; -1; -5]
  ; [ -1; -4; -4; -2; -3; -2; -1; -1; -1; -2; -3; -4; -1; -3; -4; 10; -1; -1; -3; -3; -2; -3; -1; -1; -5]
  ; [  1; -1; -4; -1; -1;  1;  0;  0; -1;  0; -3; -3;  0; -2; -3; -1;  5;  2; -2; -2;  0; -3;  0; -1; -5]
  ; [  0; -1; -3; -2; -1;  0; -1; -1; -1; -2; -1; -1; -1; -1; -2; -1;  2;  5; -2;  0;  0; -1; -1; -1; -5]
  ; [ -2; -3;  2;  2; -1; -2; -3; -1; -2; -3; -1; -1; -2;  0;  4; -3; -2; -2;  8; -1; -3; -1; -2; -1; -5]
  ; [  0; -1; -3; -4; -3; -3; -4; -3; -3; -4;  4;  1; -3;  1; -1; -3; -2;  0; -1;  5; -3;  2; -3; -1; -5]
  ; [ -2; -3; -5;  0; -1;  5;  6;  0;  1; -1; -4; -4;  0; -3; -4; -2;  0;  0; -3; -3;  6; -4;  1; -1; -5]
  ; [ -2; -2; -2; -3; -3; -4; -4; -3; -3; -4;  4;  4; -3;  2;  1; -3; -3; -1; -1;  2; -4;  4; -3; -1; -5]
  ; [ -1; -3; -2;  0;  0;  0;  1;  4;  5; -2; -3; -3;  1; -1; -4; -1;  0; -1; -2; -3;  1; -3;  5; -1; -5]
  ; [ -1; -1; -1; -1; -1; -1; -1; -1; -1; -1; -1; -1; -1; -1; -1; -1; -1; -1; -1; -1; -1; -1; -1; -1; -5]
  ; [ -5; -5; -5; -5; -5; -5; -5; -5; -5; -5; -5; -5; -5; -5; -5; -5; -5; -5; -5; -5; -5; -5; -5; -5;  0]
  ].

(** [table_data[4]]: blosum80. *)
Definition table_blosum80 : table_type :=
  (*  A   C   T   G   R   N   D   Q   E   H   I   L   K   M   F   P   S   W   Y   V   B   J   Z   X   *  *)
  [ [  5; -1;  0; -1; -2; -2; -2; -1;  0; -2; -2; -2; -1; -1; -3; -1;  1; -3; -2;  0; -2; -2; -1; -1; -6]
  ; [ -1;  9; -1; -5; -4; -3; -4; -4; -4; -4; -2; -2; -4; -2; -3; -4; -2; -3; -3; -1; -4; -2; -4; -1; -6]
  ; [  0; -1;  5; -1; -1;  0; -1; -1; -2; -2; -1; -2; -1; -1; -2; -2;  1; -4; -2;  0; -1; -1; -1; -1; -6]
  ; [ -1; -5; -1;  6; -1; -1;  1;  2; -3;  0; -4; -4;  1; -2; -4; -2;  0; -4; -3; -3;  1; -4;  5; -1; -6]
  ; [ -2; -4; -1; -1;  6; -1; -2;  1; -3;  0; -3; -3;  2; -2; -4; -2; -1; -4; -3; -3; -1; -3;  0; -1; -6]
  ; [ -2; -3;  0; -1; -1;  6;  1;  0; -1;  0; -4; -4;  0; -3; -4; -3;  0; -4; -3; -4;  5; -4;  0; -1; -6]
  ; [ -2; -4; -1;  1; -2;  1;  6; -1; -2; -2; -4; -5; -1; -4; -4; -2; -1; -6; -4; -4;  5; -5;  1; -1; -6]
  ; [ -1; -4; -1;  2;  1;  0; -1;  6; -2;  1; -3; -3;  1;  0; -4; -2;  0; -3; -2; -3;  0; -3;  4; -1; -6]
  ; [  0; -4; -2; -3; -3; -1; -2; -2;  6; -3; -5; -4; -2; -4; -4; -3; -1; -4; -4; -4; -1; -5; -3; -1; -6]
  ; [ -2; -4; -2;  0;  0;  0; -2;  1; -3;  8; -4; -3; -1; -2; -2; -3; -1; -3;  2; -4; -1; -4;  0; -1; -6]
  ; [ -2; -2; -1; -4; -3; -4; -4; -3; -5; -4;  5;  1; -3;  1; -1; -4; -3; -3; -2;  3; -4;  3; -4; -1; -6]
  ; [ -2; -2; -2; -4; -3; -4; -5; -3; -4; -3;  1;  4; -3;  2;  0; -3; -3; -2; -2;  1; -4;  3; -3; -1; -6]
  ; [ -1; -4; -1;  1;  2;  0; -1;  1; -2; -1; -3; -3;  5; -2; -4; -1; -1; -4; -3; -3; -1; -3;  1; -1; -6]
  ; [ -1; -2; -1; -2; -2; -3; -4;  0; -4; -2;  1;  2; -2;  6;  0; -3; -2; -2; -2;  1; -3;  2; -1; -1; -6]
  ; [ -3; -3; -2; -4; -4; -4; -4; -4; -4; -2; -1;  0; -4;  0;  6; -4; -3;  0;  3; -1; -4;  0; -4; -1; -6]
  ; [ -1; -4; -2; -2; -2; -3; -2; -2; -3; -3; -4; -3; -1; -3; -4;  8; -1; -5; -4; -3; -2; -4; -2; -1; -6]
  ; [  1; -2;  1;  0; -1;  0; -1;  0; -1; -1; -3; -3; -1; -2; -3; -1;  5; -4; -2; -2;  0; -3;  0; -1; -6]
  ; [ -3; -3; -4; -4; -4; -4; -6; -3; -4; -3; -3; -2; -4; -2;  0; -5; -4; 11;  2; -3; -5; -3; -3; -1; -6]
  ; [ -2; -3; -2; -3; -3; -3; -4; -2; -4;  2; -2; -2; -3; -2;  3; -4; -2;  2;  7; -2; -3; -2; -3; -1; -6]
  ; [  0; -1;  0; -3; -3; -4; -4; -3; -4; -4;  3;  1; -3;  1; -1; -3; -2; -3; -2;  4; -4;  2; -3; -1; -6]
  ; [ -2; -4; -1;  1; -1;  5;  5;  0; -1; -1; -4; -4; -1; -3; -4; -2;  0; -5; -3; -4;  5; -4;  0; -1; -6]
  ; [ -2; -2; -1; -4; -3; -4; -5; -3; -5; -4;  3;  3; -3;  2;  0; -4; -3; -3; -2;  2; -4;  3; -3; -1; -6]
  ; [ -1; -4; -1;  5;  0;  0;  1;  4; -3;  0; -4; -3;  1; -1; -4; -2;  0; -3; -3; -3;  0; -3;  5; -1; -6]
  ; [ -1; -1; -1; -1; -1; -1; -1; -1; -1; -1; -1; -1; -1; -1; -1; -1; -1; -1; -1; -1; -1; -1; -1; -1; -6]
  ; [ -6; -6; -6; -6; -6; -6; -6; -6; -6; -6; -6; -6; -6; -6; -6; -6; -6; -6; -6; -6; -6; -6; -6; -6;  0]
  ].

(** [table_data[5]]: blosum90. *)
Definition table_blosum90 : table_type :=
  (*  A   C   T   G   R   N   D   Q   E   H   I   L   K   M   F   P   S   W   Y   V   B   J   Z   X   *  *)
  [ [  5; -1;  0; -1; -2; -2; -3; -1;  0; -2; -2; -2; -1; -2; -3; -1;  1; -4; -3; -1; -2; -2; -1; -1; -6]
  ; [ -1;  9; -2; -6; -5; -4; -5; -4; -4; -5; -2; -2; -4; -2; -3; -4; -2; -4; -4; -2; -4; -2; -5; -1; -6]
  ; [  0; -2;  6; -1; -2;  0; -2; -1; -3; -2; -1; -2; -1; -1; -3; -2;  1; -4; -2; -1; -1; -2; -1; -1; -6]
  ; [ -1; -6; -1;  6; -1; -1;  1;  2; -3; -1; -4; -4;  0; -3; -5; -2; -1; -5; -4; -3;  1; -4;  5; -1; -6]
  ; [ -2; -5; -2; -1;  6; -1; -3;  1; -3;  0; -4; -3;  2; -2; -4; -3; -1; -4; -3; -3; -2; -3;  0; -1; -6]
  ; [ -2; -4;  0; -1; -1;  7;  1;  0; -1;  0; -4; -4;  0; -3; -4; -3;  0; -5; -3; -4;  5; -4; -1; -1; -6]
  ; [ -3; -5; -2;  1; -3;  1;  7; -1; -2; -2; -5; -5; -1; -4; -5; -3; -1; -6; -4; -5;  5; -5;  1; -1; -6]
  ; [ -1; -4; -1;  2;  1;  0; -1;  7; -3;  1; -4; -3;  1;  0; -4; -2; -1; -3; -3; -3; -1; -3;  5; -1; -6]
  ; [  0; -4; -3; -3; -3; -1; -2; -3;  6; -3; -5; -5; -2; -4; -5; -3; -1; -4; -5; -5; -2; -5; -3; -1; -6]
  ; [ -2; -5; -2; -1;  0;  0; -2;  1; -3;  8; -4; -4; -1; -3; -2; -3; -2; -3;  1; -4; -1; -4;  0; -1; -6]
  ; [ -2; -2; -1; -4; -4; -4; -5; -4; -5; -4;  5;  1; -4;  1; -1; -4; -3; -4; -2;  3; -5;  3; -4; -1; -6]
  ; [ -2; -2; -2; -4; -3; -4; -5; -3; -5; -4;  1;  5; -3;  2;  0; -4; -3; -3; -2;  0; -5;  4; -4; -1; -6]
  ; [ -1; -4; -1;  0;  2;  0; -1;  1; -2; -1; -4; -3;  6; -2; -4; -2; -1; -5; -3; -3; -1; -3;  1; -1; -6]
  ; [ -2; -2; -1; -3; -2; -3; -4;  0; -4; -3;  1;  2; -2;  7; -1; -3; -2; -2; -2;  0; -4;  2; -2; -1; -6]
  ; [ -3; -3; -3; -5; -4; -4; -5; -4; -5; -2; -1;  0; -4; -1;  7; -4; -3;  0;  3; -2; -4;  0; -4; -1; -6]
  ; [ -1; -4; -2; -2; -3; -3; -3; -2; -3; -3; -4; -4; -2; -3; -4;  8; -2; -5; -4; -3; -3; -4; -2; -1; -6]
  ; [  1; -2;  1; -1; -1;  0; -1; -1; -1; -2; -3; -3; -1; -2; -3; -2;  5; -4; -3; -2;  0; -3; -1; -1; -6]
  ; [ -4; -4; -4; -5; -4; -5; -6; -3; -4; -3; -4; -3; -5; -2;  0; -5; -4; 11;  2; -3; -6; -3; -4; -1; -6]
  ; [ -3; -4; -2; -4; -3; -3; -4; -3; -5;  1; -2; -2; -3; -2;  3; -4; -3;  2;  8; -3; -4; -2; -3; -1; -6]
  ; [ -1; -2; -1; -3; -3; -4; -5; -3; -5; -4;  3;  0; -3;  0; -2; -3; -2; -3; -3;  5; -4;  1; -3; -1; -6]
  ; [ -2; -4; -1;  1; -2;  5;  5; -1; -2; -1; -5; -5; -1; -4; -4; -3;  0; -6; -4; -4;  5; -5;  0; -1; -6]
  ; [ -2; -2; -2; -4; -3; -4; -5; -3; -5; -4;  3;  4; -3;  2;  0; -4; -3; -3; -2;  1; -5;  4; -4; -1; -6]
  ; [ -1; -5; -1;  5;  0; -1;  1;  5; -3;  0; -4; -4;  1; -2; -4; -2; -1; -4; -3; -3;  0; -4;  5; -1; -6]
  ; [ -1; -1; -1; -1; -1; -1; -1; -1; -1; -1; -1; -1; -1; -1; -1; -1; -1; -1; -1; -1; -1; -1; -1; -1; -6]
  ; [ -6; -6; -6; -6; -6; -6; -6; -6; -6; -6; -6; -6; -6; -6; -6; -6; -6; -6; -6; -6; -6; -6; -6; -6;  0]
  ].

(** [table_data[6]]: pam250. *)
Definition table_pam250 : table_type :=
  (*  A   C   T   G   R   N   D   Q   E   H   I   L   K   M   F   P   S   W   Y   V   B   J   Z   X   *  *)
  [ [  2; -2;  1;  0; -2;  0;  0;  0;  1; -1; -1; -2; -1; -1; -3;  1;  1; -6; -3;  0;  0; -1;  0; -1; -8]
  ; [ -2; 12; -2; -5; -4; -4; -5; -5; -3; -3; -2; -6; -5; -5; -4; -3;  0; -8;  0; -2; -4; -5; -5; -1; -8]
  ; [  1; -2;  3;  0; -1;  0;  0; -1;  0; -1;  0; -2;  0; -1; -3;  0;  1; -5; -3;  0;  0; -1; -1; -1; -8]
  ; [  0; -5;  0;  4; -1;  1;  3;  2;  0;  1; -2; -3;  0; -2; -5; -1;  0; -7; -4; -2;  3; -3;  3; -1; -8]
  ; [ -2; -4; -1; -1;  6;  0; -1;  1; -3;  2; -2; -3;  3;  0; -4;  0;  0;  2; -4; -2; -1; -3;  0; -1; -8]
  ; [  0; -4;  0;  1;  0;  2;  2;  1;  0;  2; -2; -3;  1; -2; -3;  0;  1; -4; -2; -2;  2; -3;  1; -1; -8]
  ; [  0; -5;  0;  3; -1;  2;  4;  2;  1;  1; -2; -4;  0; -3; -6; -1;  0; -7; -4; -2;  3; -3;  3; -1; -8]
  ; [  0; -5; -1;  2;  1;  1;  2;  4; -1;  3; -2; -2;  1; -1; -5;  0; -1; -5; -4; -2;  1; -2;  3; -1; -8]
  ; [  1; -3;  0;  0; -3;  0;  1; -1;  5; -2; -3; -4; -2; -3; -5;  0;  1; -7; -5; -1;  0; -4;  0; -1; -8]
  ; [ -1; -3; -1;  1;  2;  2;  1;  3; -2;  6; -2; -2;  0; -2; -2;  0; -1; -3;  0; -2;  1; -2;  2; -1; -8]
  ; [ -1; -2;  0; -2; -2; -2; -2; -2; -3; -2;  5;  2; -2;  2;  1; -2; -1; -5; -1;  4; -2;  3; -2; -1; -8]
  ; [ -2; -6; -2; -3; -3; -3; -4; -2; -4; -2;  2;  6; -3;  4;  2; -3; -3; -2; -1;  2; -3;  5; -3; -1; -8]
  ; [ -1; -5;  0;  0;  3;  1;  0;  1; -2;  0; -2; -3;  5;  0; -5; -1;  0; -3; -4; -2;  1; -3;  0; -1; -8]
  ; [ -1; -5; -1; -2;  0; -2; -3; -1; -3; -2;  2;  4;  0;  6;  0; -2; -2; -4; -2;  2; -2;  3; -2; -1; -8]
  ; [ -3; -4; -3; -5; -4; -3; -6; -5; -5; -2;  1;  2; -5;  0;  9; -5; -3;  0;  7; -1; -4;  2; -5; -1; -8]
  ; [  1; -3;  0; -1;  0;  0; -1;  0;  0;  0; -2; -3; -1; -2; -5;  6;  1; -6; -5; -1; -1; -2;  0; -1; -8]
  ; [  1;  0;  1;  0;  0;  1;  0; -1;  1; -1; -1; -3;  0; -2; -3;  1;  2; -2; -3; -1;  0; -2;  0; -1; -8]
  ; [ -6; -8; -5; -7;  2; -4; -7; -5; -7; -3; -5; -2; -3; -4;  0; -6; -2; 17;  0; -6; -5; -3; -6; -1; -8]
  ; [ -3;  0; -3; -4; -4; -2; -4; -4; -5;  0; -1; -1; -4; -2;  7; -5; -3;  0; 10; -2; -3; -1; -4; -1; -8]
  ; [  0; -2;  0; -2; -2; -2; -2; -2; -1; -2;  4;  2; -2;  2; -1; -1; -1; -6; -2;  4; -2;  2; -2; -1; -8]
  ; [  0; -4;  0;  3; -1;  2;  3;  1;  0;  1; -2; -3;  1; -2; -4; -1;  0; -5; -3; -2;  3; -3;  2; -1; -8]
  ; [ -1; -5; -1; -3; -3; -3; -3; -2; -4; -2;  3;  5; -3;  3;  2; -2; -2; -3; -1;  2; -3;  5; -2; -1; -8]
  ; [  0; -5; -1;  3;  0;  1;  3;  3;  0;  2; -2; -3;  0; -2; -5;  0;  0; -6; -4; -2;  2; -2;  3; -1; -8]
  ; [ -1; -1; -1; -1; -1; -1; -1; -1; -1; -1; -1; -1; -1; -1; -1; -1; -1; -1; -1; -1; -1; -1; -1; -1; -8]
  ; [ -8; -8; -8; -8; -8; -8; -8; -8; -8; -8; -8; -8; -8; -8; -8; -8; -8; -8; -8; -8; -8; -8; -8; -8;  0]
  ].

(** The static array [table_data]. *)
Definition table_data : list table_type :=
  [ table_default; table_blosum62; table_blosum45; table_blosum50
  ; table_blosum80; table_blosum90; table_pam250 ].

(** [local_table] links a static table to its penalty. *)
Record local_table : Type := LocalTable
  { data : table_type      (* the table pointed to *)
  ; penalty_of : score }.

(** [&table_data[k]], dereferenced. *)
Definition table_at_index (k : nat) : table_type := nth k table_data [].

(** Modelled from the spec: [dispatcher<T>] (dispatcher.hpp is not part of
    the sources at hand) is a map from names to values, built from an
    initializer list; its [operator[]] throws when the name is absent, which
    is [None] here, and [has] tells whether the name is present. *)
Abbreviation dispatcher := (gmap string).

Definition dispatcher_lookup {T} (d : dispatcher T) (name : string) : option T :=
  d !! name.

Definition dispatcher_has {T} (d : dispatcher T) (name : string) : bool :=
  bool_decide (is_Some (d !! name)).

Definition table_dispatcher : dispatcher local_table :=
  list_to_map
    [ ("default",  LocalTable (table_at_index 0) 1)
    ; ("blosum62", LocalTable (table_at_index 1) 4)
    ; ("blosum45", LocalTable (table_at_index 2) 5)
    ; ("blosum50", LocalTable (table_at_index 3) 5)
    ; ("blosum80", LocalTable (table_at_index 4) 6)
    ; ("blosum90", LocalTable (table_at_index 5) 6)
    ; ("pam250",   LocalTable (table_at_index 6) 8) ].

(** [pairwise::scoring_table]: the contents pointed to and the penalty. *)
Record scoring_table : Type := ScoringTable
  { m_contents : table_type
  ; m_penalty : score }.

(** [scoring_table::operator[]]: [( *m_contents)[offset[0]][offset[1]]].
    The array is 25 x 25 and both offsets are codes of symbols, below 25, so
    the read is always inside the array; the defaults are never reached. *)
Definition table_get (t : scoring_table) (row col : nat) : score :=
  nth col (nth row (m_contents t) []) 0.

(** [scoring_table::penalty]. *)
Definition penalty (t : scoring_table) : score := m_penalty t.

(** [scoring_table::has]. *)
Definition has (name : string) : bool := dispatcher_has table_dispatcher name.

(** [scoring_table::make]: the lookup, and the exception of the dispatcher
    caught and replaced. *)
Definition make (name : string) : result scoring_table :=
  match dispatcher_lookup table_dispatcher name with
  | Some selected => Return (ScoringTable (data selected) (penalty_of selected))
  | None => Throw (Exception ("unknown pairwise scoring table '" +:+ name +:+ "'"))
  end.

(** The canonical names of the specification. *)
Definition canonical_names : list string :=
  [ "default"; "blosum62"; "blosum45"; "blosum50"; "blosum80"; "blosum90"
  ; "pam250" ]%string.

(** ** Buffers *)

(** [buffer<T>::operator[]], read: an offset outside the buffer is [None]. *)
Definition buffer_get {T} (b : list T) (i : nat) : option T := b !! i.

(** [buffer<T>::operator[]], write. *)
Definition buffer_set {T} (b : list T) (i : nat) (v : T) : option (list T) :=
  if decide (i < length b)%nat then Some (<[i := v]> b) else None.

(** [buffer<T>::make(n)]: [n] cells; their first contents are never read. *)
Definition buffer_make (n : nat) : list score := replicate n 0.

(** ** Loops *)

(** [for(k = i; k < i + count; ++k) body], threading a state; the body may
    fail. *)
Fixpoint for_loop {S} (count i : nat) (body : nat → S → option S) (s : S)
  : option S :=
  match count with
  | O => Some s
  | Datatypes.S c => body i s ≫= for_loop c (Datatypes.S i) body
  end.

(** What a loop body with a [break] tells its loop. *)
Inductive flow (S : Type) : Type :=
| Continue (s : S)
| Break (s : S).
Arguments Continue {S} s.
Arguments Break {S} s.

Fixpoint for_break {S} (count i : nat) (body : nat → S → option (flow S)) (s : S)
  : option S :=
  match count with
  | O => Some s
  | Datatypes.S c =>
      match body i s with
      | None => None
      | Some (Break s') => Some s'
      | Some (Continue s') => for_break c (Datatypes.S i) body s'
      end
  end.

(** ** Helpers of utils.hpp *)

(** Modelled from the spec: [utils::max], the larger of two values (the
    helper is not part of the sources at hand), on scores. *)
Definition utils_max (a b : score) : score := Z.max a b.

(** Modelled from the spec: [utils::max], on offsets. *)
Definition utils_max_offset (a b : nat) : nat := Nat.max a b.

(** Modelled from the spec: [utils::min], the smaller of two values (the
    helper is not part of the sources at hand), on offsets. *)
Definition utils_min_offset (a b : nat) : nat := Nat.min a b.

(** Modelled from the spec: [utils::nchoose], the number of pairs among [n]
    objects, [n (n - 1) / 2] (the helper is not part of the sources at
    hand). *)
Definition nchoose (n : nat) : nat := (n * (n - 1)) / 2.

(** ** Sequential Needleman-Wunsch (pairwise/needleman/sequential) *)

Module needleman.
Section AlignPair.
Variables (one two : sequence) (table : scoring_table).

(** [line[i] = i * -table.penalty()] *)
Definition fill_body (i : nat) (line : list score) : option (list score) :=
  buffer_set line i (Z.of_nat i * - penalty table).

(** The body of the loop over [j], on the state [(done, line)]. *)
Definition column_body (i j : nat) (st : score * list score)
  : option (score * list score) :=
  let '(done, line) := st in
  value ← buffer_get line (j - 1);
  b ← two !! (j - 1)%nat;
  value ←
    (if decide (b ≠ padding) then
       let insertd := value - penalty table in
       cur ← buffer_get line j;
       let removed := cur - penalty table in
       a ← one !! i;
       let matched := done + table_get table (code a) (code b) in
       Some (utils_max matched (utils_max insertd removed))
     else Some value);
  done ← buffer_get line j;
  line ← buffer_set line j value;
  Some (done, line).

(** The body of the loop over [i]. *)
Definition row_body (i : nat) (line : list score) : option (flow (list score)) :=
  a ← one !! i;
  if decide (a = padding) then Some (Break line)
  else
    done ← buffer_get line 0;
    line ← buffer_set line 0 (Z.of_nat (i + 1) * - penalty table);
    st ← for_loop (length two) 1 (column_body i) (done, line);
    Some (Continue st.2).

(** [align_pair]: the score of the pair, or [None] when a buffer or a
    sequence is accessed outside its bounds. *)
Definition align_pair : option score :=
  let line := buffer_make (length two + 1) in
  line ← for_loop (length two + 1) 0 fill_body line;
  line ← for_break (length one) 0 row_body line;
  buffer_get line (length two).
End AlignPair.

(** [pairwise::pair]: the offsets of two sequences in the database. *)
Record pair : Type := Pair { first : nat; second : nat }.

(** [align]: every pair of the node is aligned, the larger sequence first.
    A database is the list of its sequences.  Modelled from the spec:
    [sequence::size] (sequence.hpp is not part of the sources at hand) is
    taken to be the length of the sequence, so that the longer sequence is
    the one placed on the row axis. *)
Fixpoint align (pairs : list pair) (db : list sequence) (table : scoring_table)
  : option (list score) :=
  match pairs with
  | [] => Some []
  | p :: rest =>
      one ← db !! first p;
      two ← db !! second p;
      r ← align_pair
            (if decide (length two < length one)%nat then one else two)
            (if decide (length two < length one)%nat then two else one)
            table;
      rs ← align rest db table;
      Some (r :: rs)
  end.

(** *** The recurrences the loops are compared to *)

Section Cells.
Variables (one two : sequence) (table : scoring_table).

(** The substitution score of row symbol [i] against column symbol [j]. *)
Definition subst (i j : nat) : score :=
  table_get table (code (nth i one padding)) (code (nth j two padding)).

(** The Needleman-Wunsch recurrence as the specification words it: row 0
    and column 0 hold [- i * p], and cell [(i, j)] is the largest of the
    diagonal cell plus the substitution score, the upper cell minus [p] and
    the left cell minus [p]. *)
Fixpoint nw_cell (i j : nat) {struct i} : score :=
  match i with
  | O => - Z.of_nat j * penalty table
  | Datatypes.S i' =>
      (fix column (j : nat) : score :=
         match j with
         | O => - Z.of_nat (Datatypes.S i') * penalty table
         | Datatypes.S j' =>
             Z.max (nw_cell i' j' + subst i' j')
               (Z.max (nw_cell i' (Datatypes.S j') - penalty table)
                      (column j' - penalty table))
         end) j
  end.

(** The same recurrence with the treatment of padding that the loops
    have: a column whose symbol is the padding symbol, or that lies beyond
    the second sequence, repeats the cell to its left. *)
Fixpoint pad_cell (i j : nat) {struct i} : score :=
  match i with
  | O => - Z.of_nat j * penalty table
  | Datatypes.S i' =>
      (fix column (j : nat) : score :=
         match j with
         | O => - Z.of_nat (Datatypes.S i') * penalty table
         | Datatypes.S j' =>
             if decide (nth j' two padding = padding) then column j'
             else
               Z.max (pad_cell i' j' + subst i' j')
                 (Z.max (pad_cell i' (Datatypes.S j') - penalty table)
                        (column j' - penalty table))
         end) j
  end.

(** The number of rows that the loop over [i] goes through: the length of
    the part of a sequence that precedes its first padding symbol. *)
Fixpoint rows (s : sequence) : nat :=
  match s with
  | [] => 0
  | c :: rest => if decide (c = padding) then 0 else Datatypes.S (rows rest)
  end.
End Cells.

(** *** The invariants of the loops *)

(** The score vector holds row [i] of the recurrence. *)
Definition holds_row (one two : sequence) (table : scoring_table)
  (i : nat) (line : list score) : Prop :=
  length line = S (length two) ∧
  ∀ k, (k ≤ length two)%nat → line !! k = Some (pad_cell one two table i k).

(** The state [(done, line)] of the loop over [j] before column [j] of row
    [i + 1]: the columns before [j] hold the new row, the others the old row,
    and [done] is the old cell of column [j - 1]. *)
Definition column_invariant (one two : sequence) (table : scoring_table)
  (i j : nat) (st : score * list score) : Prop :=
  length st.2 = S (length two) ∧
  st.1 = pad_cell one two table i (j - 1) ∧
  (∀ k, (k < j)%nat → st.2 !! k = Some (pad_cell one two table (S i) k)) ∧
  (∀ k, (j ≤ k ≤ length two)%nat → st.2 !! k = Some (pad_cell one two table i k)).

(** A sequence without padding symbols. *)
Definition unpadded (s : sequence) : Prop := Forall (λ c, c ≠ padding) s.

(** [k] padding symbols. *)
Definition pads (k : nat) : sequence := replicate k padding.
End needleman.

Definition blosum62 : scoring_table := ScoringTable table_blosum62 4.

(** ** The distance matrix (pairwise.hpp) *)

(** [pairwise::manager]: the scores of all pairs, in a buffer, and the
    number of sequences. *)
Record manager : Type := Manager
  { scores : list score
  ; m_count : nat }.

(** [manager::operator[]] on a cartesian offset. *)
Definition manager_at (m : manager) (offset : nat * nat) : option score :=
  let min := utils_min_offset offset.1 offset.2 in
  let max := utils_max_offset offset.1 offset.2 in
  if decide (min ≠ max) then buffer_get (scores m) (nchoose max + min)
  else Some 0.

(** [manager::count]. *)
Definition count (m : manager) : nat := m_count m.

(** A distance matrix over [count m] sequences stores one cell per pair. *)
Definition distance_matrix (m : manager) : Prop :=
  length (scores m) = nchoose (count m).

(** ** The first revision of the pairwise module (pairwise.cuh, pairwise.hpp) *)

Module legacy.
(** A 32-bit [int]: the value of an operation is brought back into the
    range of the type. *)
Definition int_min : Z := - 2 ^ 31.
Definition int_max : Z := 2 ^ 31 - 1.
Definition wrap (z : Z) : Z := (z + 2 ^ 31) mod 2 ^ 32 - 2 ^ 31.
Definition is_int (z : Z) : Prop := int_min ≤ z ≤ int_max.

(** [!!x] *)
Definition to_flag (x : Z) : Z := if decide (x ≠ 0) then 1 else 0.

(** [divceil]: [(a / b) + !!(a % b)], with the division and the remainder
    of C++, which truncate. *)
Definition divceil (a b : Z) : Z :=
  wrap (wrap (Z.quot a b) + to_flag (Z.rem a b)).

(** [align]: [divceil(size, align) * align]. *)
Definition align (size align : Z) : Z :=
  wrap (divceil size align * align).

(** [pairwise::Score]. *)
Record Score : Type := MkScore
  { score_value : Z
  ; matches : nat
  ; mismatches : nat
  ; gaps : nat }.

(** A value passed as a [uint16_t]. *)
Definition to_uint16 (z : Z) : Z := z mod 2 ^ 16.

(** [Pairwise::getScore(x, y)]: [score[(max + 1) * max / 2 + min]].  The two
    parameters are [uint16_t]; the offset is computed in [int], to which the
    operands are promoted, and a negative offset is outside the store. *)
Definition getScore (score : list Score) (x y : Z) : option Score :=
  let x := to_uint16 x in
  let y := to_uint16 y in
  let min := if x >? y then y else x in
  let max := if x >? y then x else y in
  let offset := wrap (wrap (Z.quot (wrap (wrap (max + 1) * max)) 2) + min) in
  if offset <? 0 then None else buffer_get score (Z.to_nat offset).
End legacy.

(** ** The number of pairs (utils.hpp) *)

(** The unsigned integral types that the template [utils::combinations]
    can be instantiated with, and their widths. *)
Inductive unsigned_type : Type := uint8 | uint16 | uint32 | uint64.

Definition bits (T : unsigned_type) : Z :=
  match T with uint8 => 8 | uint16 => 16 | uint32 => 32 | uint64 => 64 end.

(** [utils::combinations<T>]: [(count * (count - 1)) >> 1].  With a type
    narrower than [int] the operands are promoted and the expression is
    computed in [int], then converted to [T] when it is returned; with the
    other types every operation is modulo [2 ^ bits]. *)
Definition combinations (T : unsigned_type) (count : Z) : Z :=
  let count := count mod 2 ^ bits T in
  if bits T <? 32 then
    Z.shiftr (legacy.wrap (count * legacy.wrap (count - 1))) 1 mod 2 ^ bits T
  else
    Z.shiftr ((count * ((count - 1) mod 2 ^ bits T)) mod 2 ^ bits T) 1.

(** ** The neighbor-joining reducer (phylogeny/njoining/njoining.cpp) *)

Module njoining.
(** Modelled from the spec: [joinable], a join pair candidate: the
    references of the two nodes to join and the value they are compared by
    (njoining.cuh is not part of the sources at hand). *)
Record joinable : Type := Joinable
  { ref : nat * nat
  ; distance : score }.

#[global] Instance joinable_eq_dec : EqDecision joinable.
Proof. solve_decision. Defined.

(** [closest]: [a.distance > b.distance ? a : b]. *)
Definition closest (a b : joinable) : joinable :=
  if distance a >? distance b then a else b.
End njoining.

(** ** The pipeline runner (pipeline.hpp) *)

Module pipeline.
Section Runner.
(** The IO service, the conduits, and the state of everything that a
    module body may change. *)
Context {io_manager conduit world : Type}.

(** [pipeline::pipe], a pointer to a conduit; [pipe {}] is the null
    pointer. *)
Definition pipe : Type := option conduit.

(** [pipeline::module]: [check] is a [const] validation, which reads and
    does not change the state; [run] is the body of the module, which may
    change the state and may throw. *)
Record module : Type := Module_
  { name : string
  ; check : io_manager → world → bool
  ; run : io_manager → pipe → world → result pipe * world }.

(** [runner::verify] *)
Fixpoint verify (modules : list module) (io : io_manager) (w : world) : bool :=
  match modules with
  | [] => true
  | m :: rest => if negb (check m io w) then false else verify rest io w
  end.

(** The loop of [runner::execute], from a given conduit. *)
Fixpoint execute_from (modules : list module) (io : io_manager)
  (p : pipe) (w : world) : result pipe * world :=
  match modules with
  | [] => (Return p, w)
  | m :: rest =>
      match run m io p w with
      | (Return q, w') => execute_from rest io q w'
      | (Throw e, w') => (Throw e, w')
      end
  end.

(** [runner::execute] *)
Definition execute (modules : list module) (io : io_manager) (w : world)
  : result pipe * world :=
  execute_from modules io None w.

(** [runner::run] *)
Definition runner_run (modules : list module) (io : io_manager) (w : world)
  : result pipe * world :=
  if negb (verify modules io w)
  then (Throw (Exception "pipeline verification failed"), w)
  else execute modules io w.
End Runner.
Arguments module : clear implicits.
Arguments pipe : clear implicits.
End pipeline.

(** *** A pipeline to run

    Two stages that write their names to a log and pass a number on, and a
    stage whose check fails. *)
Definition stage_load : pipeline.module unit nat (list string) :=
  pipeline.Module_ "load" (λ _ _, true)
    (λ _ _ log, (Return (Some 1%nat), log ++ ["load"])).
Definition stage_pairwise : pipeline.module unit nat (list string) :=
  pipeline.Module_ "pairwise" (λ _ _, true)
    (λ _ p log, (Return (S <$> p), log ++ ["pairwise"])).
Definition stage_invalid : pipeline.module unit nat (list string) :=
  pipeline.Module_ "phylogeny" (λ _ _, false)
    (λ _ p log, (Return p, log ++ ["phylogeny"])).

(** ** Further definitions *)

(** A table whose scores do not depend on the order of the two symbols. *)
Definition symmetric (t : scoring_table) : Prop :=
  ∀ a b : symbol, table_get t (code a) (code b) = table_get t (code b) (code a).

(** The symbols of the alphabet. *)
Definition symbols : list symbol :=
  [ sA; sC; sT; sG; sR; sN; sD; sQ; sE; sH; sI; sL; sK; sM; sF; sP; sS; sW; sY
  ; sV; sB; sJ; sZ; sX; sPad ].

(** The test of [symmetric]. *)
Definition symmetricb (t : scoring_table) : bool :=
  forallb (λ a, forallb (λ b,
    table_get t (code a) (code b) =? table_get t (code b) (code a)) symbols) symbols.

(** A pair with its two offsets exchanged. *)
Definition swap (p : needleman.pair) : needleman.pair :=
  needleman.Pair (needleman.second p) (needleman.first p).

(** A sequence as the database holds it: symbols that are not padding,
    at least one, and then padding up to the end. *)
Definition tail_padded (s : sequence) : Prop :=
  ∃ u k, s = u ++ needleman.pads k ∧ needleman.unpadded u ∧ u ≠ [].

(** The offsets of a pair lie inside the database. *)
Definition in_database (db : list sequence) (p : needleman.pair) : Prop :=
  (needleman.first p < length db)%nat ∧ (needleman.second p < length db)%nat.

(** The offset of the cell of a pair in the store of the distance matrix,
    as [manager::operator[]] computes it. *)
Definition cell_offset (i j : nat) : nat :=
  (nchoose (utils_max_offset i j) + utils_min_offset i j)%nat.

(** A module that also writes its name to a log when its body is run; the
    log is kept beside the state of the module. *)
Definition traced {io_manager conduit world : Type}
  (m : pipeline.module io_manager conduit world)
  : pipeline.module io_manager conduit (list string * world) :=
  pipeline.Module_ (pipeline.name m)
    (λ io s, pipeline.check m io s.2)
    (λ io p s,
       let '(r, w') := pipeline.run m io p s.2 in
       (r, (s.1 ++ [pipeline.name m], w'))).

(** ** The copy of a table by the threads of a block (pairwise/table.cu) *)

(** A raw table read: [( *contents)[x][y]]. *)
Definition raw_get (contents : table_type) (x y : nat) : score :=
  nth y (nth x contents []) 0.

(** A raw table written: [( *contents)[x][y] = v]; the offsets of the copy
    are below 25, inside the array. *)
Definition raw_set (contents : table_type) (x y : nat) (v : score) : table_type :=
  alter (λ row, <[y := v]> row) x contents.

(** The loop of one thread,
    [for(uint16_t i = threadIdx.x; i < total; i += blockDim.x)], with
    [total = 25 * 25] and the 16-bit wrap-around of [i] written out; it is
    [None] when the loop has not ended after [fuel] tests of its
    condition. *)
Fixpoint copy_cells (fuel i stride : nat) (other : scoring_table)
  (contents : table_type) : option table_type :=
  match fuel with
  | O => None
  | S fuel =>
      if decide (i < 25 * 25)%nat then
        let x := (i / 25)%nat in
        let y := (i mod 25)%nat in
        copy_cells fuel ((i + stride) mod 2 ^ 16)%nat stride other
          (raw_set contents x y (table_get other x y))
      else Some contents
  end.

(** The device constructor [scoring_table(ptr, other)], run by the threads
    of a block of [stride] threads, one thread after the other in the order
    [threads]; [ptr] is the memory the table is copied to.  Every thread
    writes cells that no other thread writes and reads [other] only. *)
Definition device_table (threads : list nat) (stride : nat)
  (ptr : table_type) (other : scoring_table) : option scoring_table :=
  contents ←
    foldl (λ acc tid, acc ≫= copy_cells (25 * 25 + 1) (tid mod 2 ^ 16) stride other)
          (Some ptr) threads;
  Some (ScoringTable contents (penalty other)).

(** A raw table has 25 rows of 25 cells. *)
Definition raw_shape (contents : table_type) : Prop :=
  length contents = 25%nat ∧ Forall (λ row, length row = 25%nat) contents.

(** ** The loader of databases (io/loader/database.cpp) *)

(** The parsers of sequence files; [io::parser::fasta] is the only one. *)
Inductive parser : Type := parser_fasta.

Definition parser_dispatcher : dispatcher parser :=
  list_to_map [ ("fa", parser_fasta); ("fasta", parser_fasta) ].

(** [loader<database>::factory] *)
Definition factory (ext : string) : result parser :=
  match dispatcher_lookup parser_dispatcher ext with
  | Some f => Return f
  | None => Throw (Exception ("unknown database parser '" +:+ ext +:+ "'"))
  end.

(** [loader<database>::validate]; [utils::extension], which is not part of
    the sources at hand, is a parameter. *)
Definition validate (extension : string → string) (filename : string) : bool :=
  dispatcher_has parser_dispatcher (extension filename).

(** The sum of the scores of the symbols of a sequence against
    themselves. *)
Definition self_score (table : scoring_table) (s : sequence) : score :=
  foldr (λ c acc, table_get table (code c) (code c) + acc) 0 s.

(** * Properties *)

(** ** Rounding up ([divceil], [align]) *)

Section Rounding.
Import legacy.

Lemma wrap_small (z : Z) : is_int z → wrap z = z.
Proof.
  unfold is_int, int_min, int_max, wrap. intros Hz.
  rewrite Z.mod_small; lia.
Qed.

(** On a dividend that is not negative and a divisor that is positive,
    [divceil] is the quotient, plus one when the division leaves a rest. *)
Lemma divceil_unfold (a b : Z) :
  0 ≤ a ≤ int_max → 0 < b ≤ int_max →
  divceil a b = a / b + (if decide (a mod b ≠ 0) then 1 else 0).
Proof.
  intros Ha Hb. unfold divceil, to_flag.
  rewrite Z.quot_div_nonneg, Z.rem_mod_nonneg by lia.
  assert (0 ≤ a / b) by (apply Z.div_pos; lia).
  assert (a / b ≤ a) by (apply Z.div_le_upper_bound; nia).
  assert (Hdm := Z.div_mod a b ltac:(lia)).
  assert (Hm := Z.mod_pos_bound a b ltac:(lia)).
  rewrite (wrap_small (a / b)) by (unfold is_int, int_min, int_max in *; lia).
  apply wrap_small. unfold is_int, int_min, int_max in *.
  case_decide; [|lia].
  assert (a / b < a ∨ a / b = a) as [|Heq] by lia; [lia|].
  assert (b = 1 ∨ 2 ≤ b) as [->|] by lia.
  - rewrite Z.mod_1_r in *. lia.
  - nia.
Qed.

Lemma divceil_bounds (a b : Z) :
  0 ≤ a ≤ int_max → 0 < b ≤ int_max →
  a ≤ divceil a b * b ∧ (divceil a b - 1) * b < a.
Proof.
  intros Ha Hb. rewrite divceil_unfold by done.
  assert (Hdm := Z.div_mod a b ltac:(lia)).
  assert (Hm := Z.mod_pos_bound a b ltac:(lia)).
  case_decide; nia.
Qed.
End Rounding.

(** C10 (as amended).  For every [int] [a >= 0] and [b > 0], [divceil a b] is
    the ceiling of [a / b]: the least integer [q] with [a <= q * b].  For
    every size [>= 0] and alignment [w > 0] whose rounded-up size
    [divceil size w * w] fits the 32-bit [int], [align size w] is that
    product, and it is the least multiple of [w] that is at least [size]. *)
Theorem divceil_align_round_up (a b : Z) :
  0 ≤ a ≤ legacy.int_max → 0 < b ≤ legacy.int_max →
  (a ≤ legacy.divceil a b * b ∧ ∀ q, a ≤ q * b → legacy.divceil a b ≤ q) ∧
  (legacy.divceil a b * b ≤ legacy.int_max →
     legacy.align a b = legacy.divceil a b * b ∧
     a ≤ legacy.align a b ∧
     ∀ k, a ≤ k * b → legacy.align a b ≤ k * b).
Proof.
  intros Ha Hb. destruct (divceil_bounds a b Ha Hb) as [Hge Hlt].
  assert (Hleast : ∀ q, a ≤ q * b → legacy.divceil a b ≤ q) by (intros q Hq; nia).
  split; [done|]. intros Hfit.
  assert (Heq : legacy.align a b = legacy.divceil a b * b).
  { unfold legacy.align. apply wrap_small.
    unfold legacy.is_int, legacy.int_min, legacy.int_max in *. lia. }
  rewrite Heq. split_and!; [done|done|].
  intros k Hk. specialize (Hleast k Hk). nia.
Qed.

Lemma divceil_align_round_up_witness :
  (7 ≤ legacy.divceil 7 4 * 4 ∧ ∀ q, 7 ≤ q * 4 → legacy.divceil 7 4 ≤ q) ∧
  (legacy.divceil 7 4 * 4 ≤ legacy.int_max →
     legacy.align 7 4 = legacy.divceil 7 4 * 4 ∧
     7 ≤ legacy.align 7 4 ∧
     ∀ k, 7 ≤ k * 4 → legacy.align 7 4 ≤ k * 4).
Proof.
  apply (divceil_align_round_up 7 4); unfold legacy.int_max; lia.
Defined.

(** C10 as stated fails at the top of the range of [int]: the least multiple
    of 2 that is at least [2^31 - 1] is [2^31], which no [int] holds; the
    product wraps around and [align] returns a negative size. *)
Lemma align_overflow_counterexample :
  0 ≤ 2147483647 ≤ legacy.int_max ∧ 0 < 2 ≤ legacy.int_max ∧
  legacy.divceil 2147483647 2 = 1073741824 ∧
  legacy.align 2147483647 2 = -2147483648 ∧
  ¬ (2147483647 ≤ legacy.align 2147483647 2).
Proof. vm_compute. split_and!; try done; by intros []. Qed.

(** ** The neighbor-joining reducer *)

Section Closest.
Import njoining.

Lemma closest_gt (a b : joinable) : distance a > distance b → closest a b = a.
Proof. unfold closest. intros H. destruct (Z.gtb_spec (distance a) (distance b)); [done|lia]. Qed.

Lemma closest_le (a b : joinable) : distance a ≤ distance b → closest a b = b.
Proof. unfold closest. intros H. destruct (Z.gtb_spec (distance a) (distance b)); [lia|done]. Qed.

Lemma closest_distance (a b : joinable) :
  distance (closest a b) = Z.max (distance a) (distance b).
Proof.
  destruct (Z.lt_ge_cases (distance b) (distance a)).
  - rewrite closest_gt by lia. lia.
  - rewrite closest_le by lia. lia.
Qed.

Lemma closest_assoc (a b c : joinable) :
  closest (closest a b) c = closest a (closest b c).
Proof.
  destruct (Z.lt_ge_cases (distance b) (distance a)),
           (Z.lt_ge_cases (distance c) (distance b)),
           (Z.lt_ge_cases (distance c) (distance a));
    repeat first
      [ rewrite (closest_gt a b) by lia | rewrite (closest_le a b) by lia
      | rewrite (closest_gt b c) by lia | rewrite (closest_le b c) by lia
      | rewrite (closest_gt a c) by lia | rewrite (closest_le a c) by lia ];
    try done; lia.
Qed.
End Closest.

(** C4 (as amended).  The reducer returns the candidate with the larger
    value of [distance]; when the two values are equal it returns its second
    argument, whatever the indices of the two candidates are. *)
Theorem closest_larger_or_second (a b : njoining.joinable) :
  (njoining.distance a > njoining.distance b → njoining.closest a b = a) ∧
  (njoining.distance a < njoining.distance b → njoining.closest a b = b) ∧
  (njoining.distance a = njoining.distance b → njoining.closest a b = b) ∧
  njoining.distance (njoining.closest a b)
    = Z.max (njoining.distance a) (njoining.distance b).
Proof.
  split_and!.
  - apply closest_gt.
  - intros. apply closest_le. lia.
  - intros. apply closest_le. lia.
  - apply closest_distance.
Qed.

Lemma closest_larger_or_second_witness :
  let a := njoining.Joinable (0, 1)%nat 5 in
  let b := njoining.Joinable (2, 3)%nat 5 in
  njoining.distance a = njoining.distance b ∧ njoining.closest a b = b.
Proof.
  intros a b. split; [reflexivity|].
  apply (closest_larger_or_second a b). reflexivity.
Defined.

(** C4 as stated fails on a tie: of two candidates with the same value the
    reducer returns the second one, here the one with the larger indices. *)
Lemma closest_tie_counterexample :
  let a := njoining.Joinable (0, 1)%nat 5 in
  let b := njoining.Joinable (2, 3)%nat 5 in
  njoining.distance a = njoining.distance b ∧
  ((njoining.ref a).1 < (njoining.ref b).1)%nat ∧
  njoining.closest a b ≠ a.
Proof. vm_compute. split_and!; [done|lia|discriminate]. Qed.

(** C5 (as amended).  The reducer is associative; it commutes in the value
    it selects, and in the candidate it returns whenever the two values
    differ; on equal values it returns its second argument. *)
Theorem closest_assoc_comm_value (a b c : njoining.joinable) :
  njoining.closest (njoining.closest a b) c
    = njoining.closest a (njoining.closest b c) ∧
  njoining.distance (njoining.closest a b)
    = njoining.distance (njoining.closest b a) ∧
  (njoining.distance a ≠ njoining.distance b →
     njoining.closest a b = njoining.closest b a) ∧
  (njoining.distance a = njoining.distance b →
     njoining.closest a b = b ∧ njoining.closest b a = a).
Proof.
  split_and!.
  - apply closest_assoc.
  - rewrite !closest_distance. lia.
  - intros Hne. destruct (Z.lt_ge_cases (njoining.distance b) (njoining.distance a)).
    + rewrite (closest_gt a b), (closest_le b a) by lia. done.
    + rewrite (closest_le a b), (closest_gt b a) by lia. done.
  - intros Heq. split; apply closest_le; lia.
Qed.

Lemma closest_assoc_comm_value_witness :
  let a := njoining.Joinable (0, 1)%nat 7 in
  let b := njoining.Joinable (2, 3)%nat 5 in
  njoining.distance a ≠ njoining.distance b ∧
  njoining.closest a b = njoining.closest b a.
Proof.
  intros a b. split; [discriminate|].
  destruct (closest_assoc_comm_value a b a) as (_ & _ & Hcomm & _).
  apply Hcomm. discriminate.
Defined.

(** C5 as stated fails: on two distinct candidates with the same value the
    result depends on the order of the arguments. *)
Lemma closest_comm_counterexample :
  let a := njoining.Joinable (0, 1)%nat 5 in
  let b := njoining.Joinable (2, 3)%nat 5 in
  njoining.closest a b ≠ njoining.closest b a.
Proof. vm_compute. discriminate. Qed.

(** ** The distance matrix *)

Section DistanceMatrix.
Lemma nchoose_succ (n : nat) : nchoose (S n) = (nchoose n + n)%nat.
Proof.
  unfold nchoose. destruct n as [|n]; [done|].
  replace (S (S n) - 1)%nat with (S n) by lia.
  replace (S n - 1)%nat with n by lia.
  replace (S (S n) * S n)%nat with (S n * n + S n * 2)%nat by lia.
  by rewrite Nat.div_add.
Qed.

Lemma nchoose_mono (n m : nat) : (n ≤ m)%nat → (nchoose n ≤ nchoose m)%nat.
Proof.
  induction 1 as [|m _ IH]; [done|]. rewrite nchoose_succ. lia.
Qed.

(** The cell of a pair lies inside a store of [nchoose N] cells. *)
Lemma nchoose_offset_bound (N min max : nat) :
  (min < max < N)%nat → (nchoose max + min < nchoose N)%nat.
Proof.
  intros [Hmin Hmax].
  assert (nchoose (S max) ≤ nchoose N)%nat by (apply nchoose_mono; lia).
  rewrite nchoose_succ in *. lia.
Qed.

Lemma manager_at_sym (m : manager) (i j : nat) :
  manager_at m (i, j) = manager_at m (j, i).
Proof.
  unfold manager_at, utils_min_offset, utils_max_offset. simpl.
  by rewrite (Nat.min_comm j i), (Nat.max_comm j i).
Qed.

Lemma manager_at_diag (m : manager) (i : nat) : manager_at m (i, i) = Some 0.
Proof.
  unfold manager_at, utils_min_offset, utils_max_offset. simpl.
  rewrite Nat.min_id, Nat.max_id. by case_decide.
Qed.

Lemma manager_at_lower (m : manager) (min max : nat) :
  (min < max)%nat →
  manager_at m (max, min) = scores m !! (max * (max - 1) / 2 + min)%nat.
Proof.
  intros Hlt. unfold manager_at, utils_min_offset, utils_max_offset. simpl.
  rewrite Nat.min_r, Nat.max_l by lia. case_decide; [done|lia].
Qed.

(** The offset of the first revision, computed in [int]: up to
    [max = 46340] the product [(max + 1) * max] fits the type. *)
Lemma getScore_int_offset (min max : nat) :
  (min ≤ max)%nat → Z.of_nat max ≤ 46340 →
  legacy.wrap
    (legacy.wrap
       (Z.quot (legacy.wrap (legacy.wrap (Z.of_nat max + 1) * Z.of_nat max)) 2)
     + Z.of_nat min)
    = Z.of_nat ((max + 1) * max / 2 + min)%nat.
Proof.
  intros Hle Hfit.
  rewrite Nat2Z.inj_add, Nat2Z.inj_div, Nat2Z.inj_mul, Nat2Z.inj_add.
  change (Z.of_nat 1) with 1. change (Z.of_nat 2) with 2.
  remember (Z.of_nat max) as M eqn:HeqM. remember (Z.of_nat min) as m eqn:Heqm.
  assert (Hrange : 0 ≤ m ≤ M ∧ M ≤ 46340) by lia. clear HeqM Heqm Hle Hfit.
  assert (Hprod : 0 ≤ (M + 1) * M ≤ 2147441940) by nia.
  assert (Hhalf : 0 ≤ (M + 1) * M / 2 ≤ 1073720970).
  { split; [apply Z.div_pos; lia | apply Z.div_le_upper_bound; lia]. }
  rewrite (wrap_small (M + 1))
    by (unfold legacy.is_int, legacy.int_min, legacy.int_max; lia).
  rewrite (wrap_small ((M + 1) * M))
    by (unfold legacy.is_int, legacy.int_min, legacy.int_max; lia).
  rewrite Z.quot_div_nonneg by lia.
  rewrite (wrap_small ((M + 1) * M / 2))
    by (unfold legacy.is_int, legacy.int_min, legacy.int_max; lia).
  apply wrap_small. unfold legacy.is_int, legacy.int_min, legacy.int_max. lia.
Qed.

(** The first revision keeps the diagonal in its store: the cell of a pair
    is at [(max + 1) max / 2 + min], and a diagonal access reads a cell. *)
Lemma getScore_offset (score : list legacy.Score) (min max : nat) :
  (min ≤ max)%nat → Z.of_nat max ≤ 46340 →
  legacy.getScore score (Z.of_nat max) (Z.of_nat min)
    = score !! ((max + 1) * max / 2 + min)%nat ∧
  legacy.getScore score (Z.of_nat min) (Z.of_nat max)
    = score !! ((max + 1) * max / 2 + min)%nat.
Proof.
  intros Hle Hfit. unfold legacy.getScore, legacy.to_uint16.
  rewrite !Z.mod_small by lia.
  assert (Hread : ∀ k : nat,
    (if Z.of_nat k <? 0 then None else buffer_get score (Z.to_nat (Z.of_nat k)))
      = score !! k).
  { intros k. destruct (Z.ltb_spec (Z.of_nat k) 0); [lia|]. by rewrite Nat2Z.id. }
  split.
  - destruct (Z.gtb_spec (Z.of_nat max) (Z.of_nat min)).
    + rewrite getScore_int_offset by lia. apply Hread.
    + replace min with max by lia. rewrite getScore_int_offset by lia. apply Hread.
  - destruct (Z.gtb_spec (Z.of_nat min) (Z.of_nat max)); [lia|].
    rewrite getScore_int_offset by lia. apply Hread.
Qed.

Lemma getScore_sym (score : list legacy.Score) (x y : Z) :
  legacy.getScore score x y = legacy.getScore score y x.
Proof.
  unfold legacy.getScore.
  destruct (Z.gtb_spec (legacy.to_uint16 x) (legacy.to_uint16 y)),
           (Z.gtb_spec (legacy.to_uint16 y) (legacy.to_uint16 x));
    try done; try lia.
  by replace (legacy.to_uint16 y) with (legacy.to_uint16 x) by lia.
Qed.
End DistanceMatrix.

(** C3 (as amended).  In a distance matrix over N sequences, for
    [0 <= min < max < N], [manager::operator[]] reads the score of the pair
    [(max, min)] at offset [max (max - 1) / 2 + min] of the linear store,
    which has such a cell, and yields 0 on a diagonal access.  The accessor
    of the first revision, [Pairwise::getScore], reads the pair at offset
    [(max + 1) max / 2 + min] instead, for [max <= 46340], and on a diagonal
    access it reads the cell stored at [(i + 1) i / 2 + i]. *)
Theorem accessors_triangle_offsets
  (m : manager) (store : list legacy.Score) (min max : nat) :
  distance_matrix m → (min < max < count m)%nat →
  (manager_at m (max, min) = scores m !! (max * (max - 1) / 2 + min)%nat ∧
   is_Some (manager_at m (max, min)) ∧
   (max * (max - 1) / 2 + min < count m * (count m - 1) / 2)%nat ∧
   manager_at m (max, max) = Some 0 ∧ manager_at m (min, min) = Some 0) ∧
  (Z.of_nat max ≤ 46340 →
   legacy.getScore store (Z.of_nat max) (Z.of_nat min)
     = store !! ((max + 1) * max / 2 + min)%nat ∧
   legacy.getScore store (Z.of_nat max) (Z.of_nat max)
     = store !! ((max + 1) * max / 2 + max)%nat ∧
   legacy.getScore store (Z.of_nat min) (Z.of_nat min)
     = store !! ((min + 1) * min / 2 + min)%nat).
Proof.
  intros Hm Hlt. split.
  - pose proof (nchoose_offset_bound (count m) min max Hlt) as Hoff.
    rewrite manager_at_lower by lia. split_and!; [done| |done|..].
    + apply lookup_lt_is_Some. rewrite Hm. exact Hoff.
    + apply manager_at_diag.
    + apply manager_at_diag.
  - intros Hmax. split_and!.
    + apply getScore_offset; lia.
    + apply getScore_offset; lia.
    + apply getScore_offset; lia.
Qed.

Lemma accessors_triangle_offsets_witness :
  let m := Manager [8; -2; -3] 3 in
  let store := [ legacy.MkScore 7 0 0 0; legacy.MkScore 8 0 0 0
               ; legacy.MkScore 9 0 0 0; legacy.MkScore 6 0 0 0
               ; legacy.MkScore 5 0 0 0; legacy.MkScore 4 0 0 0 ] in
  (manager_at m (2, 1)%nat = Some (-3) ∧ manager_at m (2, 2)%nat = Some 0) ∧
  legacy.getScore store 2 1 = Some (legacy.MkScore 5 0 0 0).
Proof.
  intros m store.
  destruct (accessors_triangle_offsets m store 1 2)
    as ((Hcell & _ & _ & Hdiag & _) & Hstore);
    [reflexivity | unfold count; simpl; lia |].
  split; [split; [exact Hcell | exact Hdiag]|].
  destruct Hstore as (Hpair & _); [lia|]. exact Hpair.
Defined.

(** C3 as stated fails on the accessor of the first revision: the pair
    [(1, 0)] is read at offset 1, not at [1 (1 - 1) / 2 + 0 = 0], and the
    diagonal access [(0, 0)] returns the cell stored at offset 0. *)
Lemma getScore_triangle_counterexample :
  let store := [ legacy.MkScore 7 0 0 0; legacy.MkScore 8 0 0 0
               ; legacy.MkScore 9 0 0 0 ] in
  legacy.getScore store 1 0 = Some (legacy.MkScore 8 0 0 0) ∧
  store !! (1 * (1 - 1) / 2 + 0)%nat = Some (legacy.MkScore 7 0 0 0) ∧
  legacy.getScore store 0 0 = Some (legacy.MkScore 7 0 0 0).
Proof. vm_compute. done. Qed.

(** C6 (as amended).  [manager::operator[]] is symmetric, and it yields 0 on
    the diagonal.  The accessor of the first revision, [Pairwise::getScore],
    is symmetric as well, but on the diagonal it returns the cell stored at
    offset [(i + 1) i / 2 + i], for [i <= 46340], and not 0. *)
Theorem accessors_symmetric_diagonal
  (m : manager) (store : list legacy.Score) (i j : nat) (x y : Z) :
  manager_at m (i, j) = manager_at m (j, i) ∧
  manager_at m (i, i) = Some 0 ∧
  legacy.getScore store x y = legacy.getScore store y x ∧
  (Z.of_nat i ≤ 46340 →
   legacy.getScore store (Z.of_nat i) (Z.of_nat i)
     = store !! ((i + 1) * i / 2 + i)%nat).
Proof.
  split_and!.
  - apply manager_at_sym.
  - apply manager_at_diag.
  - apply getScore_sym.
  - intros Hi. apply getScore_offset; lia.
Qed.

(** C6 as stated fails on the accessor of the first revision: the diagonal
    access [(1, 1)] returns the cell stored at offset 2, whose score is
    not 0. *)
Lemma getScore_diagonal_counterexample :
  let store := [ legacy.MkScore 7 0 0 0; legacy.MkScore 8 0 0 0
               ; legacy.MkScore 9 0 0 0 ] in
  legacy.getScore store 1 1 = Some (legacy.MkScore 9 0 0 0) ∧
  legacy.score_value (legacy.MkScore 9 0 0 0) ≠ 0.
Proof. vm_compute. split; [done|discriminate]. Qed.

(** ** The catalog of scoring tables *)

Section Catalog.
Lemma make_unknown (name : string) :
  name ∉ canonical_names →
  make name
    = Throw (Exception ("unknown pairwise scoring table '" +:+ name +:+ "'")).
Proof.
  intros Hn. unfold canonical_names in Hn.
  rewrite !not_elem_of_cons in Hn.
  destruct Hn as (? & ? & ? & ? & ? & ? & ? & _).
  unfold make, dispatcher_lookup, table_dispatcher. cbn [list_to_map foldr fst snd uncurry].
  rewrite !lookup_insert_ne by done. by rewrite lookup_empty.
Qed.

Lemma make_known (name : string) :
  name ∈ canonical_names → ∃ t, make name = Return t.
Proof.
  unfold canonical_names. rewrite !elem_of_cons, elem_of_nil.
  intros [->|[->|[->|[->|[->|[->|[->|[]]]]]]]]; eexists; vm_compute; reflexivity.
Qed.
End Catalog.

(** C7.  [make] returns, for each of the seven canonical names, the table of
    that name with its penalty, and throws the unknown-table exception for
    every other name; the penalty of the table of ["blosum62"] is 4. *)
Theorem make_canonical_names :
  make "default"  = Return (ScoringTable table_default 1) ∧
  make "blosum62" = Return (ScoringTable table_blosum62 4) ∧
  make "blosum45" = Return (ScoringTable table_blosum45 5) ∧
  make "blosum50" = Return (ScoringTable table_blosum50 5) ∧
  make "blosum80" = Return (ScoringTable table_blosum80 6) ∧
  make "blosum90" = Return (ScoringTable table_blosum90 6) ∧
  make "pam250"   = Return (ScoringTable table_pam250 8) ∧
  (∀ name, (∃ t, make name = Return t) ↔ name ∈ canonical_names) ∧
  (∀ name, name ∉ canonical_names →
     make name
       = Throw (Exception ("unknown pairwise scoring table '" +:+ name +:+ "'"))) ∧
  make "blosum99"
    = Throw (Exception "unknown pairwise scoring table 'blosum99'") ∧
  (∀ t, make "blosum62" = Return t → penalty t = 4).
Proof.
  split_and!; try (vm_compute; reflexivity).
  - intros name. split; [|apply make_known].
    intros [t Ht]. destruct (decide (name ∈ canonical_names)) as [|Hn]; [done|].
    rewrite (make_unknown name Hn) in Ht. discriminate.
  - apply make_unknown.
  - intros t Ht. vm_compute in Ht. by injection Ht as <-.
Qed.

Lemma make_canonical_names_witness :
  make "blosum99"
    = Throw (Exception "unknown pairwise scoring table 'blosum99'") ∧
  penalty blosum62 = 4.
Proof.
  destruct make_canonical_names
    as (_ & Hblosum62 & _ & _ & _ & _ & _ & _ & Hunknown & _ & Hpenalty).
  split.
  - apply (Hunknown "blosum99"). unfold canonical_names.
    rewrite !not_elem_of_cons. split_and!; try discriminate. apply not_elem_of_nil.
  - apply (Hpenalty blosum62). exact Hblosum62.
Defined.

(** ** The pipeline runner *)

Section Pipeline.
Import pipeline.
Context {io_manager conduit world : Type}.
Implicit Types (modules : list (module io_manager conduit world)).
Implicit Types (io : io_manager) (w : world) (p : pipe conduit).

Lemma verify_true modules io w :
  (∀ m, m ∈ modules → check m io w = true) → verify modules io w = true.
Proof.
  induction modules as [|m rest IH]; intros Hall; [done|]. simpl.
  rewrite (Hall m) by left. simpl. apply IH. intros m' Hm'. apply Hall. by right.
Qed.

Lemma verify_false modules io w :
  (∃ m, m ∈ modules ∧ check m io w = false) → verify modules io w = false.
Proof.
  induction modules as [|m rest IH]; intros (m' & Hin & Hm').
  - by apply elem_of_nil in Hin.
  - simpl. destruct (check m io w) eqn:Hm; [|done]. simpl. apply IH.
    apply elem_of_cons in Hin as [->|Hin]; [congruence|by exists m'].
Qed.

(** Stages compose: the stages of the back of the list start from the
    conduit and the state that the front leaves. *)
Lemma execute_from_app front back io p w :
  execute_from (front ++ back) io p w
    = match execute_from front io p w with
      | (Return q, w') => execute_from back io q w'
      | (Throw e, w') => (Throw e, w')
      end.
Proof.
  revert p w. induction front as [|m front IH]; intros p w; [done|].
  simpl. destruct (run m io p w) as [[q|e] w']; [apply IH|done].
Qed.

Lemma execute_from_snoc front m io p w :
  execute_from (front ++ [m]) io p w
    = match execute_from front io p w with
      | (Return q, w') => run m io q w'
      | (Throw e, w') => (Throw e, w')
      end.
Proof.
  rewrite execute_from_app.
  destruct (execute_from front io p w) as [[q|e] w']; [|done].
  simpl. by destruct (run m io q w') as [[r|e] w''].
Qed.
End Pipeline.

(** C8.  The runner evaluates the checks in the state it is started in,
    before any module body.  If a check returns false, [run] throws the
    verification failure and leaves the state as it was: no module body is
    executed.  Otherwise the modules are executed in the order of their
    declaration, from the empty conduit: each stage is given the conduit
    that the stages before it return, and the conduit of the last stage is
    the result. *)
Theorem runner_run_verifies_then_chains
  {io_manager conduit world : Type}
  (modules : list (pipeline.module io_manager conduit world))
  (io : io_manager) (w : world) :
  ((∃ m, m ∈ modules ∧ pipeline.check m io w = false) →
     pipeline.runner_run modules io w
       = (Throw (Exception "pipeline verification failed"), w)) ∧
  ((∀ m, m ∈ modules → pipeline.check m io w = true) →
     pipeline.runner_run modules io w = pipeline.execute_from modules io None w) ∧
  pipeline.execute_from (conduit := conduit) [] io None w = (Return None, w) ∧
  (∀ front m back, modules = front ++ m :: back →
     pipeline.execute_from (front ++ [m]) io None w
       = match pipeline.execute_from front io None w with
         | (Return q, w') => pipeline.run m io q w'
         | (Throw e, w') => (Throw e, w')
         end).
Proof.
  split_and!.
  - intros Hbad. unfold pipeline.runner_run. by rewrite verify_false.
  - intros Hall. unfold pipeline.runner_run. by rewrite verify_true.
  - done.
  - intros front m back _. apply execute_from_snoc.
Qed.

Lemma runner_run_verifies_then_chains_witness :
  pipeline.runner_run [stage_load; stage_pairwise; stage_invalid] () []
    = (Throw (Exception "pipeline verification failed"), []) ∧
  pipeline.runner_run [stage_load; stage_pairwise] () []
    = (Return (Some 2%nat), ["load"; "pairwise"]).
Proof.
  split.
  - apply (runner_run_verifies_then_chains
             [stage_load; stage_pairwise; stage_invalid] () []).
    exists stage_invalid. split; [|reflexivity].
    do 2 apply list_elem_of_further. apply list_elem_of_here.
  - destruct (runner_run_verifies_then_chains [stage_load; stage_pairwise] () [])
      as (_ & Hok & _ & Hchain).
    rewrite Hok.
    + exact (Hchain [stage_load] stage_pairwise [] eq_refl).
    + intros m Hm. apply list_elem_of_In in Hm. simpl in Hm.
      destruct Hm as [<-|[<-|[]]]; reflexivity.
Defined.

(** ** Scenarios of the sequential alignment *)

(** C9.  Under the table of ["blosum62"], whose penalty is 4, the empty
    sequence against the sequence ["A"] scores -4, whichever of the two comes
    first, and the computation stays inside its buffers ([Some]); through
    [align], which puts the larger sequence first, the score is the same. *)
Theorem align_pair_empty_against_one_symbol :
  make "blosum62" = Return blosum62 ∧ penalty blosum62 = 4 ∧
  needleman.align_pair [] [sA] blosum62 = Some (-4) ∧
  needleman.align_pair [sA] [] blosum62 = Some (-4) ∧
  needleman.align [needleman.Pair 0 1] [[]; [sA]] blosum62 = Some [-4] ∧
  needleman.align [needleman.Pair 1 0] [[]; [sA]] blosum62 = Some [-4].
Proof. split_and!; vm_compute; reflexivity. Qed.

(** ** Loops with an invariant *)

Section LoopRules.
Context {St : Type}.

(** A loop whose body keeps an invariant returns, and ends in it. *)
Lemma for_loop_invariant (P : nat → St → Prop) (body : nat → St → option St)
  (count i : nat) (s : St) :
  P i s →
  (∀ k t, (i ≤ k < i + count)%nat → P k t →
     ∃ t', body k t = Some t' ∧ P (S k) t') →
  ∃ s', for_loop count i body s = Some s' ∧ P (i + count)%nat s'.
Proof.
  revert i s. induction count as [|count IH]; intros i s Hs Hbody.
  - exists s. by rewrite Nat.add_0_r.
  - destruct (Hbody i s ltac:(lia) Hs) as (t & Ht & HPt).
    destruct (IH (S i) t HPt) as (s' & Hs' & HPs').
    { intros k u Hk. apply Hbody. lia. }
    exists s'. simpl. rewrite Ht. simpl.
    by replace (i + S count)%nat with (S i + count)%nat by lia.
Qed.

(** The same for a loop that may be left by [break]. *)
Lemma for_break_invariant (P : nat → St → Prop) (Q : St → Prop)
  (body : nat → St → option (flow St)) (count i : nat) (s : St) :
  P i s →
  (∀ k t, (i ≤ k < i + count)%nat → P k t →
     (∃ t', body k t = Some (Continue t') ∧ P (S k) t') ∨
     (∃ t', body k t = Some (Break t') ∧ Q t')) →
  (∀ t, P (i + count)%nat t → Q t) →
  ∃ s', for_break count i body s = Some s' ∧ Q s'.
Proof.
  revert i s. induction count as [|count IH]; intros i s Hs Hbody Hend.
  - exists s. split; [done|]. apply Hend. by rewrite Nat.add_0_r.
  - simpl. destruct (Hbody i s ltac:(lia) Hs) as [(t & -> & HPt)|(t & -> & HQt)].
    + apply (IH (S i) t HPt).
      * intros k u Hk. apply Hbody. lia.
      * intros u Hu. apply Hend.
        by replace (i + S count)%nat with (S i + count)%nat by lia.
    + by exists t.
Qed.
End LoopRules.

(** ** The sequential Needleman-Wunsch *)

Section Rows.
Import needleman.

Lemma rows_le_length (s : sequence) : (rows s ≤ length s)%nat.
Proof. induction s as [|c s IH]; simpl; [lia|]. case_decide; lia. Qed.

Lemma rows_lookup_lt (s : sequence) (k : nat) :
  (k < rows s)%nat → ∃ a, s !! k = Some a ∧ a ≠ padding.
Proof.
  revert k. induction s as [|c s IH]; intros k; simpl; [lia|].
  case_decide; [lia|]. destruct k as [|k]; intros Hk.
  - by exists c.
  - apply IH. lia.
Qed.

Lemma rows_lookup_eq (s : sequence) :
  (rows s < length s)%nat → s !! rows s = Some padding.
Proof.
  induction s as [|c s IH]; simpl; [lia|].
  case_decide as Hc; [by rewrite Hc|]. intros Hlt. apply IH. lia.
Qed.

Lemma rows_unpadded (s : sequence) : unpadded s → rows s = length s.
Proof.
  induction 1 as [|c s Hc _ IH]; simpl; [done|]. case_decide; [done|]. by rewrite IH.
Qed.

Lemma rows_app_pads (s : sequence) (k : nat) : rows (s ++ pads k) = rows s.
Proof.
  induction s as [|c s IH]; simpl.
  - by destruct k.
  - case_decide; [done|]. by rewrite IH.
Qed.

Lemma nth_app_pads (s : sequence) (k i : nat) :
  nth i (s ++ pads k) padding = nth i s padding.
Proof.
  rewrite !nth_lookup. destruct (decide (i < length s)%nat) as [Hlt|Hge].
  - by rewrite lookup_app_l.
  - rewrite lookup_app_r by lia. rewrite (lookup_ge_None_2 s i) by lia.
    unfold pads. destruct (replicate k padding !! (i - length s)%nat) as [c|] eqn:E; [|done].
    by apply lookup_replicate_1 in E as [-> _].
Qed.

Lemma nth_lookup_symbol (s : sequence) (i : nat) (a : symbol) :
  s !! i = Some a → nth i s padding = a.
Proof. intros H. by apply nth_lookup_Some with (d := padding) in H. Qed.
End Rows.

Section AlignPairCorrect.
Import needleman.
Variables (one two : sequence) (table : scoring_table).

Local Abbreviation p := (penalty table).
Local Abbreviation n := (length two).
Local Abbreviation G := (pad_cell one two table).
Local Abbreviation holds_row := (holds_row one two table).
Local Abbreviation column_invariant := (column_invariant one two table).

Local Arguments pad_cell : simpl never.

Lemma pad_cell_row_0 (j : nat) : G 0 j = - Z.of_nat j * p.
Proof. done. Qed.

Lemma pad_cell_column_0 (i : nat) : G (S i) 0 = - Z.of_nat (S i) * p.
Proof. done. Qed.

Lemma pad_cell_inner (i j : nat) :
  G (S i) (S j)
    = if decide (nth j two padding = padding) then G (S i) j
      else Z.max (G i j + subst one two table i j)
             (Z.max (G i (S j) - p) (G (S i) j - p)).
Proof. done. Qed.

Lemma buffer_set_inside (line : list score) (k : nat) (v : score) :
  (k < length line)%nat → buffer_set line k v = Some (<[k := v]> line).
Proof. intros Hk. unfold buffer_set. by case_decide. Qed.

(** The first loop fills the vector with row 0. *)
Lemma fill_row_0 :
  ∃ line, for_loop (n + 1) 0 (fill_body table) (buffer_make (n + 1)) = Some line
          ∧ holds_row 0 line.
Proof.
  destruct (for_loop_invariant
    (λ i line, length line = S n ∧ ∀ k, (k < i)%nat → line !! k = Some (G 0 k))
    (fill_body table) (n + 1) 0 (buffer_make (n + 1)))
    as (line & Hrun & Hlen & Hline).
  - split; [|lia]. unfold buffer_make. rewrite length_replicate. lia.
  - intros k line Hk [Hlen Hline]. exists (<[k := Z.of_nat k * - p]> line).
    split; [apply buffer_set_inside; lia|].
    split; [by rewrite length_insert|].
    intros k' Hk'. destruct (decide (k' = k)) as [->|Hne].
    + rewrite list_lookup_insert_eq by lia. f_equal. rewrite pad_cell_row_0. lia.
    + rewrite list_lookup_insert_ne by done. apply Hline. lia.
  - exists line. split; [done|]. split; [done|].
    intros k Hk. apply Hline. lia.
Qed.

Lemma column_body_step (i j : nat) (a : symbol) (st : score * list score) :
  one !! i = Some a → (1 ≤ j ≤ n)%nat →
  column_invariant i j st →
  ∃ st', column_body one two table i j st = Some st'
         ∧ column_invariant i (S j) st'.
Proof.
  intros Ha Hj. destruct st as [done line]. intros (Hlen & Hdone & Hnew & Hold).
  cbn [fst snd] in Hlen, Hdone, Hnew, Hold.
  destruct j as [|j]; [lia|].
  replace (S j - 1)%nat with j in Hdone by lia.
  destruct (lookup_lt_is_Some_2 two j ltac:(lia)) as [b Hb].
  pose proof (nth_lookup_symbol _ _ _ Ha) as Hnth_a.
  pose proof (nth_lookup_symbol _ _ _ Hb) as Hnth_b.
  exists (G i (S j), <[S j := G (S i) (S j)]> line). split.
  - unfold column_body, buffer_get.
    replace (S j - 1)%nat with j by lia.
    rewrite (Hnew j) by lia. simpl. rewrite Hb. simpl.
    rewrite (Hold (S j)) by lia.
    rewrite pad_cell_inner, Hnth_b. unfold subst. rewrite Hnth_a, Hnth_b.
    destruct (decide (b = padding)) as [Hpad|Hpad]; simpl.
    + rewrite decide_False by (intros Hne; by apply Hne).
      simpl. by rewrite buffer_set_inside by lia.
    + rewrite decide_True by done. simpl. rewrite Ha. simpl.
      rewrite buffer_set_inside by lia. simpl.
      subst done. unfold utils_max.  do 3 f_equal. lia.
  - split_and!; simpl.
    + by rewrite length_insert.
    + by replace (S (S j) - 1)%nat with (S j) by lia.
    + intros k Hk. destruct (decide (k = S j)) as [->|Hne].
      * by rewrite list_lookup_insert_eq by lia.
      * rewrite list_lookup_insert_ne by done. apply Hnew. lia.
    + intros k Hk. rewrite list_lookup_insert_ne by lia. apply Hold. lia.
Qed.

(** A row whose symbol is not the padding symbol takes the vector from row
    [i] to row [i + 1]. *)
Lemma row_body_continue (i : nat) (a : symbol) (line : list score) :
  one !! i = Some a → a ≠ padding → holds_row i line →
  ∃ line', row_body one two table i line = Some (Continue line')
           ∧ holds_row (S i) line'.
Proof.
  intros Ha Hpad [Hlen Hline].
  destruct (for_loop_invariant (column_invariant i) (column_body one two table i)
              n 1 (G i 0, <[0%nat := G (S i) 0]> line))
    as ([done line'] & Hrun & Hlen' & _ & Hnew & _).
  - split_and!; simpl.
    + by rewrite length_insert.
    + done.
    + intros k Hk. replace k with 0%nat by lia.
      by rewrite list_lookup_insert_eq by lia.
    + intros k Hk. rewrite list_lookup_insert_ne by lia. apply Hline. lia.
  - intros k st Hk. apply (column_body_step i k a st Ha). lia.
  - exists line'. split.
    + unfold row_body, buffer_get. rewrite Ha. simpl.
      rewrite decide_False by done. rewrite (Hline 0%nat) by lia. simpl.
      rewrite buffer_set_inside by lia. simpl.
      replace (Z.of_nat (i + 1) * - penalty table) with (G (S i) 0)
        by (rewrite pad_cell_column_0; lia).
      by rewrite Hrun.
    + split; [done|]. intros k Hk. apply Hnew. lia.
Qed.

(** The loop over [i] ends on the row of the first padding symbol of the
    first sequence, or on its last row. *)
Lemma rows_loop (line : list score) :
  holds_row 0 line →
  ∃ line', for_break (length one) 0 (row_body one two table) line = Some line'
           ∧ holds_row (rows one) line'.
Proof.
  intros Hline.
  apply (for_break_invariant
           (λ i line, (i ≤ rows one)%nat ∧ holds_row i line)
           (holds_row (rows one))).
  - split; [lia|done].
  - intros i t Hi [Hle Ht].
    destruct (lookup_lt_is_Some_2 one i ltac:(lia)) as [a Ha].
    destruct (decide (a = padding)) as [->|Hpad].
    + right. exists t. split.
      * unfold row_body. by rewrite Ha.
      * destruct (decide (i = rows one)) as [<-|Hne]; [done|].
        destruct (rows_lookup_lt one i ltac:(lia)) as (a' & Ha' & Hnp).
        congruence.
    + left. destruct (row_body_continue i a t Ha Hpad Ht) as (t' & Hrun & Ht').
      exists t'. split; [done|]. split; [|done].
      destruct (decide (i = rows one)) as [->|Hne]; [|lia].
      rewrite rows_lookup_eq in Ha by lia. congruence.
  - intros t [Hle Ht]. pose proof (rows_le_length one).
    by replace (rows one) with (0 + length one)%nat by lia.
Qed.

(** [align_pair] returns, and its score is the cell of the last processed
    row in the last column. *)
Lemma align_pair_pad_cell :
  align_pair one two table = Some (G (rows one) n).
Proof.
  destruct fill_row_0 as (line0 & Hfill & Hline0).
  destruct (rows_loop line0 Hline0) as (line & Hrows & [Hlen Hline]).
  unfold align_pair. rewrite Hfill. simpl. rewrite Hrows. simpl.
  unfold buffer_get. by apply Hline.
Qed.
End AlignPairCorrect.

Section Recurrences.
Import needleman.

Local Arguments pad_cell : simpl never.
Local Arguments nw_cell : simpl never.

Lemma nw_cell_inner (one two : sequence) (table : scoring_table) (i j : nat) :
  nw_cell one two table (S i) (S j)
    = Z.max (nw_cell one two table i j + subst one two table i j)
        (Z.max (nw_cell one two table i (S j) - penalty table)
               (nw_cell one two table (S i) j - penalty table)).
Proof. done. Qed.

(** The cells depend on the sequences through their symbols only, where
    a position beyond a sequence counts as a padding symbol. *)
Lemma pad_cell_ext (one one' two two' : sequence) (table : scoring_table) :
  (∀ k, nth k one padding = nth k one' padding) →
  (∀ k, nth k two padding = nth k two' padding) →
  ∀ i j, pad_cell one two table i j = pad_cell one' two' table i j.
Proof.
  intros Hone Htwo. induction i as [|i IHi]; intros j; [done|].
  induction j as [|j IHj]; [done|].
  rewrite !pad_cell_inner. unfold subst.
  by rewrite Hone, Htwo, !IHi, IHj.
Qed.

(** Beyond the second sequence, a row that was processed repeats its last
    cell. *)
Lemma pad_cell_beyond (one two : sequence) (table : scoring_table) (i k : nat) :
  pad_cell one two table (S i) (length two + k)
    = pad_cell one two table (S i) (length two).
Proof.
  induction k as [|k IH]; [by rewrite Nat.add_0_r|].
  replace (length two + S k)%nat with (S (length two + k)) by lia.
  rewrite pad_cell_inner, nth_overflow by lia.
  by rewrite decide_True.
Qed.

(** Without padding symbols in the second sequence, the cells are those of
    the Needleman-Wunsch recurrence. *)
Lemma pad_cell_unpadded (one two : sequence) (table : scoring_table) :
  unpadded two →
  ∀ i j, (j ≤ length two)%nat →
    pad_cell one two table i j = nw_cell one two table i j.
Proof.
  intros Htwo. induction i as [|i IHi]; intros j Hj; [done|].
  induction j as [|j IHj]; [done|].
  rewrite pad_cell_inner, nw_cell_inner.
  destruct (lookup_lt_is_Some_2 two j ltac:(lia)) as [b Hb].
  rewrite (nth_lookup_symbol _ _ _ Hb).
  rewrite decide_False.
  - by rewrite !IHi, IHj by lia.
  - unfold unpadded in Htwo. rewrite Forall_lookup in Htwo. by apply (Htwo j).
Qed.

(** Without a row to process, the score is that of row 0, which counts
    every column, padding included. *)
Lemma align_pair_no_rows (one two : sequence) (table : scoring_table) :
  rows one = 0%nat →
  align_pair one two table = Some (- Z.of_nat (length two) * penalty table).
Proof. intros Hrows. by rewrite align_pair_pad_cell, Hrows. Qed.
End Recurrences.

(** C1.  For sequences [s] and [t] without padding symbols, of lengths
    [m >= n], [align_pair s t table] returns the cell [(m, n)] of the
    recurrence whose row 0 and column 0 hold [- i * p] and whose cell
    [(i, j)] is the largest of [(i-1, j-1) + M[s[i-1], t[j-1]]],
    [(i-1, j) - p] and [(i, j-1) - p]. *)
Theorem align_pair_needleman_wunsch (s t : sequence) (table : scoring_table) :
  needleman.unpadded s → needleman.unpadded t → (length t ≤ length s)%nat →
  let cell := needleman.nw_cell s t table in
  let p := penalty table in
  let M i j := table_get table (code (nth i s padding)) (code (nth j t padding)) in
  (∀ j, cell 0%nat j = - Z.of_nat j * p) ∧
  (∀ i, cell i 0%nat = - Z.of_nat i * p) ∧
  (∀ i j, cell (S i) (S j)
          = Z.max (cell i j + M i j) (Z.max (cell i (S j) - p) (cell (S i) j - p))) ∧
  needleman.align_pair s t table = Some (cell (length s) (length t)).
Proof.
  intros Hs Ht _ cell p M. split_and!.
  - done.
  - by intros [|i].
  - intros i j. apply nw_cell_inner.
  - rewrite align_pair_pad_cell, (rows_unpadded s Hs).
    by rewrite pad_cell_unpadded.
Qed.

Lemma align_pair_needleman_wunsch_witness :
  needleman.align_pair [sA; sC; sG; sT] [sA; sG; sT] blosum62 = Some 11.
Proof.
  assert (Hs : needleman.unpadded [sA; sC; sG; sT])
    by (repeat constructor; discriminate).
  assert (Ht : needleman.unpadded [sA; sG; sT])
    by (repeat constructor; discriminate).
  assert (Hlen : (length [sA; sG; sT] ≤ length [sA; sC; sG; sT])%nat)
    by (simpl; lia).
  destruct (align_pair_needleman_wunsch [sA; sC; sG; sT] [sA; sG; sT] blosum62
              Hs Ht Hlen) as (_ & _ & _ & Hrun).
  exact Hrun.
Defined.

(** Where padding is neutral.  Padding symbols appended to the first
    sequence never change the score of [align_pair]; padding symbols appended
    to the second sequence do not change it when the first sequence has a row
    to process, that is, when it is not empty and does not begin with a
    padding symbol. *)
Theorem align_pair_appended_padding
  (one two : sequence) (table : scoring_table) (k : nat) :
  needleman.align_pair (one ++ needleman.pads k) two table
    = needleman.align_pair one two table ∧
  ((∃ c rest, one = c :: rest ∧ c ≠ padding) →
     needleman.align_pair one (two ++ needleman.pads k) table
       = needleman.align_pair one two table).
Proof.
  split.
  - rewrite !align_pair_pad_cell, rows_app_pads.
    f_equal. apply pad_cell_ext; [apply nth_app_pads|done].
  - intros (c & rest & -> & Hc).
    rewrite !align_pair_pad_cell. simpl. rewrite decide_False by done.
    f_equal. rewrite length_app. unfold needleman.pads at 2. rewrite length_replicate.
    rewrite (pad_cell_ext (c :: rest) (c :: rest) (two ++ needleman.pads k) two table);
      [apply pad_cell_beyond|done|apply nth_app_pads].
Qed.

Lemma align_pair_appended_padding_witness :
  needleman.align_pair [sA; sC; sG; sT] ([sA; sG; sT] ++ needleman.pads 3) blosum62
    = needleman.align_pair [sA; sC; sG; sT] [sA; sG; sT] blosum62.
Proof.
  apply (align_pair_appended_padding [sA; sC; sG; sT] [sA; sG; sT] blosum62 3).
  exists sA, [sC; sG; sT]. split; [reflexivity|discriminate].
Defined.

(** Without a row to process the score is the last cell of row 0, and the
    padding symbols of the second sequence are counted as gaps. *)
Lemma align_pair_padding_counterexample :
  needleman.align_pair [] [sA; sC; sG; sT] blosum62 = Some (-16) ∧
  needleman.align_pair [] ([sA; sC; sG; sT] ++ needleman.pads 3) blosum62
    = Some (-28).
Proof. split; vm_compute; reflexivity. Qed.


(** C2.  The code at an input on which appended padding changes the score:
    the first sequence is the longer one and holds padding only, so that no
    row is processed and the score is the last cell of row 0, which is filled
    with one penalty for every column, padded columns included.  ["A**"]
    scores -12 where its truncation ["A"] scores -4, through [align_pair]
    and through [align]. *)
Theorem align_pair_padding_changes_score :
  needleman.align_pair (needleman.pads 4) [sA] blosum62 = Some (-4) ∧
  needleman.align_pair (needleman.pads 4) ([sA] ++ needleman.pads 2) blosum62
    = Some (-12) ∧
  needleman.align [needleman.Pair 0 1] [needleman.pads 4; [sA]] blosum62
    = Some [-4] ∧
  needleman.align [needleman.Pair 0 1]
    [needleman.pads 4; [sA] ++ needleman.pads 2] blosum62 = Some [-12].
Proof. split_and!; vm_compute; reflexivity. Qed.

(** * Further properties *)

(** ** The sequential alignment on every input *)

Section AlignPairMore.
Import needleman.
Local Arguments pad_cell : simpl never.
Local Arguments nw_cell : simpl never.

(** The cells of the first [i] rows depend on the first [i] symbols of the
    first sequence only. *)
Lemma pad_cell_ext_rows (one one' two : sequence) (table : scoring_table) (i : nat) :
  (∀ k, (k < i)%nat → nth k one padding = nth k one' padding) →
  ∀ j, pad_cell one two table i j = pad_cell one' two table i j.
Proof.
  induction i as [|i IHi]; intros Hone j; [done|].
  induction j as [|j IHj]; [done|].
  rewrite !pad_cell_inner. unfold subst.
  rewrite (Hone i) by lia. rewrite !IHi by (intros; apply Hone; lia).
  by rewrite IHj.
Qed.

Lemma rows_app_padding (s rest : sequence) :
  rows (s ++ padding :: rest) = rows s.
Proof.
  induction s as [|c s IH]; simpl; [done|]. case_decide; [done|]. by rewrite IH.
Qed.

Lemma pad_cell_first_column (one two : sequence) (table : scoring_table) (i : nat) :
  pad_cell one two table i 0 = - Z.of_nat i * penalty table.
Proof. by destruct i. Qed.

(** With a penalty that is not negative, no cell is below the score of an
    alignment made of gaps only. *)
Lemma pad_cell_lower_bound (one two : sequence) (table : scoring_table) :
  0 ≤ penalty table →
  ∀ i j, - Z.of_nat (i + j) * penalty table ≤ pad_cell one two table i j.
Proof.
  intros Hp. induction i as [|i IHi]; intros j.
  - rewrite pad_cell_row_0. simpl. lia.
  - induction j as [|j IHj].
    + rewrite pad_cell_column_0. rewrite Nat.add_0_r. lia.
    + rewrite pad_cell_inner. case_decide.
      * etrans; [|exact IHj]. nia.
      * pose proof (IHi (S j)). nia.
Qed.

Lemma symbols_complete (a : symbol) : In a symbols.
Proof. destruct a; simpl; tauto. Qed.

Lemma symmetricb_correct (table : scoring_table) :
  symmetricb table = true → symmetric table.
Proof.
  unfold symmetricb. rewrite forallb_forall. intros Hall a b.
  specialize (Hall a (symbols_complete a)). rewrite forallb_forall in Hall.
  specialize (Hall b (symbols_complete b)). by apply Z.eqb_eq in Hall.
Qed.

(** With a symmetric table, exchanging the two sequences transposes the
    cells. *)
Lemma nw_cell_transpose (s t : sequence) (table : scoring_table) :
  symmetric table →
  ∀ i j, nw_cell s t table i j = nw_cell t s table j i.
Proof.
  intros Hsym. induction i as [|i IHi]; intros j.
  - by destruct j.
  - induction j as [|j IHj]; [done|].
    rewrite !nw_cell_inner. unfold subst.
    rewrite (Hsym (nth i s padding) (nth j t padding)).
    rewrite (IHi j), (IHi (S j)), IHj. lia.
Qed.

Lemma align_pair_unpadded (s t : sequence) (table : scoring_table) :
  unpadded s → unpadded t →
  align_pair s t table = Some (nw_cell s t table (length s) (length t)).
Proof.
  intros Hs Ht. rewrite align_pair_pad_cell, (rows_unpadded s Hs).
  by rewrite pad_cell_unpadded.
Qed.

End AlignPairMore.

(** X1.  On every pair of sequences and every table, [align_pair] returns a
    score and stays inside its buffers; the score is the cell, in the last
    column, of the last row processed, for the recurrence in which a column
    of padding repeats the cell to its left. *)
Theorem align_pair_always_returns (one two : sequence) (table : scoring_table) :
  let cell := needleman.pad_cell one two table in
  let p := penalty table in
  (∀ j, cell 0%nat j = - Z.of_nat j * p) ∧
  (∀ i, cell i 0%nat = - Z.of_nat i * p) ∧
  (∀ i j, cell (S i) (S j)
          = if decide (nth j two padding = padding) then cell (S i) j
            else Z.max (cell i j + needleman.subst one two table i j)
                   (Z.max (cell i (S j) - p) (cell (S i) j - p))) ∧
  needleman.align_pair one two table
    = Some (cell (needleman.rows one) (length two)).
Proof.
  intros cell p. split_and!.
  - done.
  - apply pad_cell_first_column.
  - apply pad_cell_inner.
  - apply align_pair_pad_cell.
Qed.

(** X2.  Whatever follows the first padding symbol of the first sequence is
    ignored. *)
Theorem align_pair_stops_at_padding
  (one rest two : sequence) (table : scoring_table) :
  needleman.align_pair (one ++ padding :: rest) two table
    = needleman.align_pair one two table.
Proof.
  rewrite !align_pair_pad_cell, rows_app_padding. f_equal.
  apply pad_cell_ext_rows. intros k Hk.
  pose proof (rows_le_length one).
  rewrite !nth_lookup, lookup_app_l by lia. done.
Qed.

(** X3.  Against an empty second sequence the score is one gap for every
    row processed; without a row to process it is one gap for every column
    of the second sequence, padding included. *)
Theorem align_pair_only_gaps (one two : sequence) (table : scoring_table) :
  needleman.align_pair one [] table
    = Some (- Z.of_nat (needleman.rows one) * penalty table) ∧
  (needleman.rows one = 0%nat →
     needleman.align_pair one two table
       = Some (- Z.of_nat (length two) * penalty table)).
Proof.
  split.
  - by rewrite align_pair_pad_cell, pad_cell_first_column.
  - apply align_pair_no_rows.
Qed.

Lemma align_pair_only_gaps_witness :
  needleman.align_pair [sPad; sA] [sA; sC; sPad] blosum62 = Some (-12).
Proof.
  apply (align_pair_only_gaps [sPad; sA] [sA; sC; sPad] blosum62). reflexivity.
Defined.

(** X4.  With a penalty that is not negative, the score is never below that
    of the alignment made of gaps only. *)
Theorem align_pair_lower_bound
  (one two : sequence) (table : scoring_table) (v : score) :
  0 ≤ penalty table →
  needleman.align_pair one two table = Some v →
  - Z.of_nat (needleman.rows one + length two) * penalty table ≤ v.
Proof.
  intros Hp. rewrite align_pair_pad_cell. intros [= <-].
  by apply pad_cell_lower_bound.
Qed.

Lemma align_pair_lower_bound_witness :
  needleman.align_pair [sC; sW] [sA; sG; sT] blosum62 = Some (-6) ∧
  - Z.of_nat (2 + 3) * 4 ≤ -6.
Proof.
  split; [reflexivity|].
  apply (align_pair_lower_bound [sC; sW] [sA; sG; sT] blosum62 (-6));
    [done | reflexivity].
Defined.

(** X5.  With a symmetric table, the score of two sequences without padding
    symbols does not depend on which of the two comes first. *)
Theorem align_pair_exchange (s t : sequence) (table : scoring_table) :
  symmetric table → needleman.unpadded s → needleman.unpadded t →
  needleman.align_pair s t table = needleman.align_pair t s table.
Proof.
  intros Hsym Hs Ht. rewrite !align_pair_unpadded by done.
  by rewrite (nw_cell_transpose s t table Hsym).
Qed.

Lemma align_pair_exchange_witness :
  needleman.align_pair [sA; sC; sG; sT] [sA; sG; sT] blosum62
    = needleman.align_pair [sA; sG; sT] [sA; sC; sG; sT] blosum62.
Proof.
  apply (align_pair_exchange [sA; sC; sG; sT] [sA; sG; sT] blosum62).
  - apply symmetricb_correct. reflexivity.
  - repeat constructor; discriminate.
  - repeat constructor; discriminate.
Defined.

Section AlignMore.
Import needleman.
Local Arguments pad_cell : simpl never.
Local Arguments nw_cell : simpl never.

Lemma align_pair_contents (u v : sequence) (k k' : nat) (table : scoring_table) :
  u ≠ [] → unpadded u → unpadded v →
  align_pair (u ++ pads k) (v ++ pads k') table
    = Some (nw_cell u v table (length u) (length v)).
Proof.
  intros Hne Hu Hv.
  rewrite align_pair_pad_cell, rows_app_pads, (rows_unpadded u Hu).
  rewrite length_app. unfold pads at 3. rewrite length_replicate. f_equal.
  rewrite (pad_cell_ext (u ++ pads k) u (v ++ pads k') v table)
    by (intros; apply nth_app_pads).
  destruct u as [|c u]; [done|]. simpl length.
  rewrite pad_cell_beyond. by apply pad_cell_unpadded.
Qed.

Lemma align_pair_tail_padded_symmetric (s t : sequence) (table : scoring_table) :
  symmetric table → tail_padded s → tail_padded t →
  align_pair s t table = align_pair t s table.
Proof.
  intros Hsym (u & k & -> & Hu & Hune) (v & k' & -> & Hv & Hvne).
  rewrite !align_pair_contents by done.
  by rewrite (nw_cell_transpose u v table Hsym).
Qed.

Lemma align_cons (p : pair) (rest : list pair) (db : list sequence)
  (table : scoring_table) (one two : sequence) :
  db !! first p = Some one → db !! second p = Some two →
  align (p :: rest) db table
    = r ← align_pair (if decide (length two < length one)%nat then one else two)
                     (if decide (length two < length one)%nat then two else one)
                     table;
      rs ← align rest db table; Some (r :: rs).
Proof. intros H1 H2. simpl. by rewrite H1, H2. Qed.
End AlignMore.

(** X6.  Sequences that end in padding score like their contents: for [u]
    not empty and [u], [v] without padding symbols, the score of [u] and [v]
    followed by any number of padding symbols is the Needleman-Wunsch cell
    [(|u|, |v|)] of [u] and [v]. *)
Theorem align_pair_of_contents
  (u v : sequence) (k k' : nat) (table : scoring_table) :
  u ≠ [] → needleman.unpadded u → needleman.unpadded v →
  needleman.align_pair (u ++ needleman.pads k) (v ++ needleman.pads k') table
    = Some (needleman.nw_cell u v table (length u) (length v)) ∧
  needleman.align_pair (u ++ needleman.pads k) (v ++ needleman.pads k') table
    = needleman.align_pair u v table.
Proof.
  intros Hne Hu Hv. rewrite align_pair_contents by done.
  split; [done|]. by rewrite align_pair_unpadded.
Qed.

Lemma align_pair_of_contents_witness :
  needleman.align_pair ([sA; sC; sG; sT] ++ needleman.pads 2)
                       ([sA; sG; sT] ++ needleman.pads 3) blosum62 = Some 11.
Proof.
  refine (proj1 (align_pair_of_contents [sA; sC; sG; sT] [sA; sG; sT] 2 3 blosum62
                   _ _ _)).
  - discriminate.
  - repeat constructor; discriminate.
  - repeat constructor; discriminate.
Defined.

(** X7.  [align] returns one score for each pair when the offsets of every
    pair lie inside the database, and fails as soon as one does not. *)
Theorem align_in_database
  (pairs : list needleman.pair) (db : list sequence) (table : scoring_table) :
  (Forall (in_database db) pairs →
     ∃ rs, needleman.align pairs db table = Some rs ∧ length rs = length pairs) ∧
  (Exists (λ p, ¬ in_database db p) pairs →
     needleman.align pairs db table = None).
Proof.
  split.
  - induction 1 as [|p rest [Hfirst Hsecond] _ (rs & Hrs & Hlen)]; [by exists []|].
    destruct (lookup_lt_is_Some_2 db _ Hfirst) as [one Hone].
    destruct (lookup_lt_is_Some_2 db _ Hsecond) as [two Htwo].
    rewrite (align_cons p rest db table one two Hone Htwo).
    rewrite align_pair_pad_cell, Hrs. simpl. eexists. split; [done|].
    simpl. by rewrite Hlen.
  - induction 1 as [p rest Hout|p rest _ IH]; simpl.
    + destruct (db !! needleman.first p) as [one|] eqn:Hone; [|done].
      destruct (db !! needleman.second p) as [two|] eqn:Htwo; [|done].
      exfalso. apply Hout. split; eapply lookup_lt_Some; eassumption.
    + destruct (db !! needleman.first p) as [one|]; [|done].
      destruct (db !! needleman.second p) as [two|]; [|done].
      simpl. rewrite IH.
      by destruct (needleman.align_pair _ _ table).
Qed.

Lemma align_in_database_witness :
  (∃ rs, needleman.align [needleman.Pair 1 0; needleman.Pair 2 1]
           [[sA]; [sA; sC]; [sG]] blosum62 = Some rs ∧ length rs = 2%nat) ∧
  needleman.align [needleman.Pair 1 0; needleman.Pair 3 1]
    [[sA]; [sA; sC]; [sG]] blosum62 = None.
Proof.
  split.
  - apply (align_in_database [needleman.Pair 1 0; needleman.Pair 2 1]
             [[sA]; [sA; sC]; [sG]] blosum62).
    repeat constructor; simpl; lia.
  - apply (align_in_database [needleman.Pair 1 0; needleman.Pair 3 1]
             [[sA]; [sA; sC]; [sG]] blosum62).
    apply Exists_cons_tl, Exists_cons_hd. unfold in_database. simpl. lia.
Defined.

(** X8.  With a symmetric table and a database of sequences that end in
    padding, the scores of [align] do not depend on the order of the two
    offsets of a pair. *)
Theorem align_exchange
  (pairs : list needleman.pair) (db : list sequence) (table : scoring_table) :
  symmetric table → Forall tail_padded db →
  needleman.align (swap <$> pairs) db table = needleman.align pairs db table.
Proof.
  intros Hsym Hdb. induction pairs as [|p rest IH]; [done|].
  rewrite fmap_cons. simpl. rewrite IH.
  destruct (db !! needleman.first p) as [one|] eqn:Hone;
    destruct (db !! needleman.second p) as [two|] eqn:Htwo; try done.
  simpl. rewrite Forall_lookup in Hdb.
  pose proof (Hdb _ _ Hone) as Hpone. pose proof (Hdb _ _ Htwo) as Hptwo.
  repeat case_decide; try done; try lia.
  by rewrite (align_pair_tail_padded_symmetric one two table).
Qed.

Lemma align_exchange_witness :
  needleman.align [needleman.Pair 0 1] [[sA; sC; sPad]; [sA; sG; sT]] blosum62
    = needleman.align [needleman.Pair 1 0] [[sA; sC; sPad]; [sA; sG; sT]] blosum62.
Proof.
  symmetry.
  apply (align_exchange [needleman.Pair 0 1] [[sA; sC; sPad]; [sA; sG; sT]] blosum62).
  - apply symmetricb_correct. reflexivity.
  - repeat constructor.
    + exists [sA; sC], 1%nat. split; [reflexivity|].
      split; [repeat constructor; discriminate | discriminate].
    + exists [sA; sG; sT], 0%nat. split; [reflexivity|].
      split; [repeat constructor; discriminate | discriminate].
Defined.

(** ** The catalog and its tables *)

Section CatalogMore.
Lemma make_returns_canonical (name : string) (t : scoring_table) :
  make name = Return t → name ∈ canonical_names.
Proof.
  intros Ht. destruct (decide (name ∈ canonical_names)) as [|Hn]; [done|].
  rewrite (make_unknown name Hn) in Ht. discriminate.
Qed.
End CatalogMore.

(** X9.  [has] tells exactly whether [make] returns: a name has a table when
    and only when [make] does not throw on it, that is, when it is one of the
    canonical names. *)
Theorem has_iff_make_returns (name : string) :
  (has name = true ↔ ∃ t, make name = Return t) ∧
  (has name = true ↔ name ∈ canonical_names).
Proof.
  assert (Hmake : has name = true ↔ ∃ t, make name = Return t).
  { unfold has, dispatcher_has, make, dispatcher_lookup.
    rewrite bool_decide_eq_true.
    destruct (table_dispatcher !! name) as [selected|]; split.
    - intros _. by eexists.
    - intros _. by eexists.
    - by intros [? ?].
    - by intros [? ?]. }
  split; [done|]. rewrite Hmake. split.
  - intros [t Ht]. by apply (make_returns_canonical name t).
  - apply make_known.
Qed.

(** X10.  Every table that [make] returns is a 25 x 25 array, is symmetric,
    scores every symbol against the padding symbol at minus its penalty and
    the padding symbol against itself at 0, and has a positive penalty. *)
Theorem make_tables_well_formed (name : string) (t : scoring_table) :
  make name = Return t →
  length (m_contents t) = 25%nat ∧
  Forall (λ row, length row = 25%nat) (m_contents t) ∧
  symmetric t ∧
  (∀ a, a ≠ padding → table_get t (code a) (code padding) = - penalty t) ∧
  table_get t (code padding) (code padding) = 0 ∧
  0 < penalty t.
Proof.
  intros Ht. pose proof (make_returns_canonical name t Ht) as Hname.
  unfold canonical_names in Hname. rewrite !elem_of_cons, elem_of_nil in Hname.
  destruct Hname as [->|[->|[->|[->|[->|[->|[->|[]]]]]]]];
    vm_compute in Ht; injection Ht as <-;
    (split_and!;
     [ reflexivity
     | repeat constructor
     | apply symmetricb_correct; reflexivity
     | intros a Ha; destruct a; try reflexivity; by destruct Ha
     | reflexivity
     | reflexivity ]).
Qed.

Lemma make_tables_well_formed_witness :
  symmetric blosum62 ∧ 0 < penalty blosum62.
Proof.
  destruct (make_tables_well_formed "blosum62" blosum62)
    as (_ & _ & Hsym & _ & _ & Hpen); [reflexivity|].
  split; [exact Hsym | exact Hpen].
Defined.

(** ** The cells of the distance matrix *)

Section CellOffsets.
Lemma cell_offset_lower (min max : nat) :
  (min < max)%nat → cell_offset max min = (nchoose max + min)%nat
                    ∧ cell_offset min max = (nchoose max + min)%nat.
Proof.
  intros Hlt. unfold cell_offset, utils_max_offset, utils_min_offset.
  by rewrite (Nat.max_l max min), (Nat.min_r max min),
             (Nat.max_r min max), (Nat.min_l min max) by lia.
Qed.

Lemma nchoose_offset_inj (min max min' max' : nat) :
  (min < max)%nat → (min' < max')%nat →
  (nchoose max + min = nchoose max' + min')%nat → max = max' ∧ min = min'.
Proof.
  intros Hlt Hlt' Heq.
  assert (max = max') as ->.
  { destruct (Nat.lt_trichotomy max max') as [Hm|[Hm|Hm]]; [|done|].
    - pose proof (nchoose_mono (S max) max' ltac:(lia)) as Hmono.
      rewrite nchoose_succ in Hmono. lia.
    - pose proof (nchoose_mono (S max') max ltac:(lia)) as Hmono.
      rewrite nchoose_succ in Hmono. lia. }
  split; [done|lia].
Qed.

Lemma nchoose_offset_surj (N k : nat) :
  (k < nchoose N)%nat → ∃ min max, (min < max < N)%nat ∧ k = (nchoose max + min)%nat.
Proof.
  induction N as [|N IH]; intros Hk; [by vm_compute in Hk; lia|].
  rewrite nchoose_succ in Hk.
  destruct (decide (k < nchoose N)%nat) as [Hlt|Hge].
  - destruct (IH Hlt) as (min & max & Hr & ->). exists min, max. split; [lia|done].
  - exists (k - nchoose N)%nat, N. split; lia.
Qed.

End CellOffsets.

(** X11.  In a distance matrix over N sequences every pair of distinct
    sequences has a cell of its own in the store: the accessor reads the cell
    at [cell_offset], which lies inside the store; two pairs share a cell
    only when they are the same pair, in either order; and every cell of the
    store is the cell of a pair. *)
Theorem manager_cells_one_to_one (m : manager) :
  distance_matrix m →
  (∀ i j, i ≠ j → (i < count m)%nat → (j < count m)%nat →
     manager_at m (i, j) = scores m !! cell_offset i j ∧
     (cell_offset i j < length (scores m))%nat) ∧
  (∀ i j i' j', i ≠ j → i' ≠ j' → cell_offset i j = cell_offset i' j' →
     (i = i' ∧ j = j') ∨ (i = j' ∧ j = i')) ∧
  (∀ k, (k < length (scores m))%nat →
     ∃ i j, (j < i < count m)%nat ∧ cell_offset i j = k).
Proof.
  intros Hm. split_and!.
  - intros i j Hne Hi Hj. split.
    + unfold manager_at, cell_offset, utils_min_offset, utils_max_offset. simpl.
      case_decide; [done|]. lia.
    + rewrite Hm. destruct (decide (j < i)%nat).
      * rewrite (proj1 (cell_offset_lower j i ltac:(lia))).
        apply nchoose_offset_bound. lia.
      * rewrite (proj2 (cell_offset_lower i j ltac:(lia))).
        apply nchoose_offset_bound. lia.
  - intros i j i' j' Hne Hne' Heq.
    destruct (decide (j < i)%nat), (decide (j' < i')%nat).
    + rewrite (proj1 (cell_offset_lower j i ltac:(lia))),
              (proj1 (cell_offset_lower j' i' ltac:(lia))) in Heq.
      left. apply nchoose_offset_inj in Heq; lia.
    + rewrite (proj1 (cell_offset_lower j i ltac:(lia))),
              (proj2 (cell_offset_lower i' j' ltac:(lia))) in Heq.
      right. apply nchoose_offset_inj in Heq; lia.
    + rewrite (proj2 (cell_offset_lower i j ltac:(lia))),
              (proj1 (cell_offset_lower j' i' ltac:(lia))) in Heq.
      right. apply nchoose_offset_inj in Heq; lia.
    + rewrite (proj2 (cell_offset_lower i j ltac:(lia))),
              (proj2 (cell_offset_lower i' j' ltac:(lia))) in Heq.
      left. apply nchoose_offset_inj in Heq; lia.
  - intros k Hk. rewrite Hm in Hk.
    destruct (nchoose_offset_surj (count m) k Hk) as (min & max & Hr & ->).
    exists max, min. split; [done|].
    by rewrite (proj1 (cell_offset_lower min max ltac:(lia))).
Qed.

Lemma manager_cells_one_to_one_witness :
  let m := Manager [8; -2; -3] 3 in
  manager_at m (0, 2)%nat = Some (-2) ∧ ∃ i j, (j < i < 3)%nat ∧ cell_offset i j = 2%nat.
Proof.
  intros m.
  destruct (manager_cells_one_to_one m) as (Hread & _ & Hcell); [reflexivity|].
  split.
  - destruct (Hread 0%nat 2%nat) as [Hat _];
      [discriminate | unfold count; simpl; lia | unfold count; simpl; lia |].
    exact Hat.
  - apply (Hcell 2%nat). simpl. lia.
Defined.

(** ** The number of pairs *)

Section Combinations.
Lemma product_even (c : Z) : ∃ q, c * (c - 1) = 2 * q.
Proof.
  destruct (Z.Even_or_Odd c) as [[k ->]|[k ->]].
  - exists (k * (2 * k - 1)). lia.
  - exists (k * (2 * k + 1)). lia.
Qed.

Lemma combinations_promoted (T : unsigned_type) (count : Z) :
  bits T < 32 → 0 ≤ count < 2 ^ bits T →
  count * (count - 1) ≤ legacy.int_max →
  combinations T count = (count * (count - 1) / 2) mod 2 ^ bits T.
Proof.
  intros HT Hcount Hfit. unfold combinations.
  rewrite (Z.mod_small count) by done.
  destruct (Z.ltb_spec (bits T) 32); [|lia].
  assert (0 ≤ count * (count - 1)) by nia.
  assert (2 ^ bits T ≤ 2 ^ 31) by (apply Z.pow_le_mono_r; destruct T; simpl in *; lia).
  rewrite (wrap_small (count - 1))
    by (unfold legacy.is_int, legacy.int_min, legacy.int_max in *; lia).
  rewrite (wrap_small (count * (count - 1)))
    by (unfold legacy.is_int, legacy.int_min, legacy.int_max in *; lia).
  by rewrite Z.shiftr_div_pow2 by lia.
Qed.

Lemma combinations_unsigned (T : unsigned_type) (count : Z) :
  32 ≤ bits T → 0 ≤ count < 2 ^ bits T →
  count * (count - 1) < 2 ^ bits T →
  combinations T count = count * (count - 1) / 2.
Proof.
  intros HT Hcount Hfit. unfold combinations.
  rewrite (Z.mod_small count) by done.
  destruct (Z.ltb_spec (bits T) 32); [lia|].
  destruct (decide (count = 0)) as [->|Hne].
  - by rewrite Z.mul_0_l, Z.mod_0_l by lia.
  - rewrite (Z.mod_small (count - 1)) by lia.
    assert (0 ≤ count * (count - 1)) by nia.
    rewrite (Z.mod_small (count * (count - 1))) by lia.
    by rewrite Z.shiftr_div_pow2 by lia.
Qed.
End Combinations.

(** X12.  For an unsigned type [T] and a count that [T] holds, with
    [count (count - 1)] below [2 ^ bits], [combinations] halves without a
    rest: twice its value is [count (count - 1)].  With a type narrower than
    [int], whenever the product fits the [int] it is computed in, the value
    is [count (count - 1) / 2] cut to the width of [T]. *)
Theorem combinations_exact (T : unsigned_type) (count : Z) :
  0 ≤ count < 2 ^ bits T →
  (count * (count - 1) < 2 ^ bits T →
     2 * combinations T count = count * (count - 1)) ∧
  (bits T < 32 → count * (count - 1) ≤ legacy.int_max →
     combinations T count = (count * (count - 1) / 2) mod 2 ^ bits T).
Proof.
  intros Hcount. split; [|intros HT Hfit; by apply combinations_promoted].
  intros Hfit. destruct (product_even count) as [q Hq].
  assert (Hhalf : count * (count - 1) / 2 = q)
    by (rewrite Hq, Z.mul_comm; apply Z.div_mul; lia).
  assert (0 ≤ count * (count - 1)) by nia.
  destruct (Z.lt_ge_cases (bits T) 32) as [Hnarrow|Hwide].
  - rewrite combinations_promoted; [|done|done|].
    + rewrite Hhalf, Z.mod_small; lia.
    + assert (2 ^ bits T ≤ 2 ^ 31)
        by (apply Z.pow_le_mono_r; destruct T; simpl in *; lia).
      unfold legacy.int_max. lia.
  - rewrite combinations_unsigned by (done || lia). lia.
Qed.

Lemma combinations_exact_witness :
  2 * combinations uint64 100000 = 100000 * 99999 ∧
  combinations uint16 363 = 167.
Proof.
  destruct (combinations_exact uint64 100000) as [Hexact _]; [simpl; lia|].
  destruct (combinations_exact uint16 363) as [_ Hcut]; [simpl; lia|].
  split.
  - apply Hexact. simpl. lia.
  - rewrite Hcut; [reflexivity | simpl; lia | unfold legacy.int_max; lia].
Defined.

(** ** Reducing many candidates *)

Section ClosestMore.
Import njoining.

Lemma closest_cases (a b : joinable) : closest a b = a ∨ closest a b = b.
Proof. unfold closest. destruct (distance a >? distance b); auto. Qed.
End ClosestMore.

(** X13.  Reducing a list of candidates with [closest], from the left,
    returns one of the candidates, and none of them has a larger value. *)
Theorem closest_fold_maximum (a : njoining.joinable) (l : list njoining.joinable) :
  foldl njoining.closest a l ∈ a :: l ∧
  ∀ x, x ∈ a :: l →
    njoining.distance x ≤ njoining.distance (foldl njoining.closest a l).
Proof.
  revert a. induction l as [|b l IH]; intros a.
  - split; [left|]. intros x Hx. apply list_elem_of_singleton in Hx as ->. simpl. lia.
  - simpl. destruct (IH (njoining.closest a b)) as [Hin Hmax]. split.
    + apply elem_of_cons in Hin as [Hin|Hin].
      * rewrite Hin. destruct (closest_cases a b) as [->| ->];
          [left | right; left].
      * by do 2 right.
    + intros x Hx.
      assert (Hab : njoining.distance x ≤ njoining.distance (njoining.closest a b)
                    ∨ x ∈ l).
      { rewrite closest_distance.
        apply elem_of_cons in Hx as [->|Hx]; [left; lia|].
        apply elem_of_cons in Hx as [->|Hx]; [left; lia|by right]. }
      destruct Hab as [Hle|Hl].
      * etrans; [exact Hle|]. apply Hmax. left.
      * apply Hmax. by right.
Qed.

(** ** The pipeline runner, further *)

Section PipelineMore.
Import pipeline.
Context {io_manager conduit world : Type}.
Implicit Types (modules : list (module io_manager conduit world)).
Implicit Types (io : io_manager) (w : world) (p : pipe conduit).

Lemma verify_traced modules io w (log : list string) :
  verify (traced <$> modules) io (log, w) = verify modules io w.
Proof.
  induction modules as [|m rest IH]; [done|].
  rewrite fmap_cons. cbn [verify]. by rewrite IH.
Qed.

Lemma execute_from_traced modules io p w (log : list string) q w' :
  execute_from modules io p w = (Return q, w') →
  execute_from (traced <$> modules) io p (log, w)
    = (Return q, (log ++ (name <$> modules), w')).
Proof.
  revert p w log. induction modules as [|m rest IH]; intros p w log.
  - simpl. intros [= -> ->]. by rewrite app_nil_r.
  - rewrite !fmap_cons. cbn [execute_from]. unfold traced at 1. cbn [run fst snd].
    destruct (run m io p w) as [[r|e] w1] eqn:Hrun; [|done].
    intros Hrest. rewrite (IH r w1 (log ++ [name m]) Hrest).
    by rewrite <- app_assoc.
Qed.
End PipelineMore.

(** X14.  When a stage throws, the stages after it are not run: the
    exception and the state at the throw are the result of the runner,
    whatever modules follow. *)
Theorem runner_run_stops_at_throw
  {io_manager conduit world : Type}
  (front back : list (pipeline.module io_manager conduit world))
  (io : io_manager) (w w' : world) (e : exception) :
  (∀ m, m ∈ front ++ back → pipeline.check m io w = true) →
  pipeline.execute_from front io None w = (Throw e, w') →
  pipeline.runner_run (front ++ back) io w = (Throw e, w').
Proof.
  intros Hall Hthrow. unfold pipeline.runner_run, pipeline.execute.
  rewrite verify_true by done. simpl.
  by rewrite execute_from_app, Hthrow.
Qed.

Lemma runner_run_stops_at_throw_witness :
  let failing : pipeline.module unit nat (list string) :=
    pipeline.Module_ "broken" (λ _ _, true)
      (λ _ _ log, (Throw (Exception "no input"), log ++ ["broken"])) in
  pipeline.runner_run ([stage_load; failing] ++ [stage_pairwise]) () []
    = (Throw (Exception "no input"), ["load"; "broken"]).
Proof.
  intros failing.
  apply (runner_run_stops_at_throw [stage_load; failing] [stage_pairwise] () []).
  - intros m Hm. apply list_elem_of_In in Hm. simpl in Hm.
    destruct Hm as [<-|[<-|[<-|[]]]]; reflexivity.
  - reflexivity.
Defined.

(** X15.  In a run that returns, the body of every module is run once, in
    the order of the declaration: with every module made to write its name
    to a log, the run returns the same conduit and state, and the log grows
    by the names of the modules in their order. *)
Theorem runner_run_order
  {io_manager conduit world : Type}
  (modules : list (pipeline.module io_manager conduit world))
  (io : io_manager) (w w' : world) (log : list string)
  (p : pipeline.pipe conduit) :
  pipeline.runner_run modules io w = (Return p, w') →
  pipeline.runner_run (traced <$> modules) io (log, w)
    = (Return p, (log ++ (pipeline.name <$> modules), w')).
Proof.
  unfold pipeline.runner_run, pipeline.execute. rewrite verify_traced.
  destruct (pipeline.verify modules io w); simpl; [|done].
  apply execute_from_traced.
Qed.

Lemma runner_run_order_witness :
  pipeline.runner_run (traced <$> [stage_load; stage_pairwise]) () (["start"], [])
    = (Return (Some 2%nat), (["start"; "load"; "pairwise"], ["load"; "pairwise"])).
Proof.
  apply (runner_run_order [stage_load; stage_pairwise] () [] _ ["start"]).
  reflexivity.
Defined.

(** ** Rounding up, further *)

(** X16.  When the rounded-up size fits the [int], [align] adds less than
    one alignment, returns a multiple of the alignment, leaves a multiple of
    the alignment as it is, and is idempotent. *)
Theorem align_properties (size w : Z) :
  0 ≤ size ≤ legacy.int_max → 0 < w ≤ legacy.int_max →
  legacy.divceil size w * w ≤ legacy.int_max →
  size ≤ legacy.align size w < size + w ∧
  legacy.align size w mod w = 0 ∧
  (size mod w = 0 → legacy.align size w = size) ∧
  legacy.align (legacy.align size w) w = legacy.align size w.
Proof.
  intros Hsize Hw Hfit.
  destruct (divceil_bounds size w Hsize Hw) as [Hge Hlt].
  assert (Heq : legacy.align size w = legacy.divceil size w * w).
  { unfold legacy.align. apply wrap_small.
    unfold legacy.is_int, legacy.int_min, legacy.int_max in *. lia. }
  assert (Hfixed : ∀ s, 0 ≤ s ≤ legacy.int_max → s mod w = 0 →
                        legacy.align s w = s).
  { intros s Hs Hmod. unfold legacy.align.
    rewrite (divceil_unfold s w Hs Hw), decide_False by lia.
    rewrite Z.add_0_r.
    assert (s = w * (s / w)) by (apply Z.div_exact; lia).
    replace (s / w * w) with s by lia. apply wrap_small.
    unfold legacy.is_int, legacy.int_min, legacy.int_max in *. lia. }
  assert (Hmod : legacy.align size w mod w = 0)
    by (rewrite Heq; apply Z.mod_mul; lia).
  split; [rewrite Heq; nia|]. split; [done|]. split; [by apply Hfixed|].
  apply Hfixed; [rewrite Heq; lia|done].
Qed.

Lemma align_properties_witness :
  7 ≤ legacy.align 7 4 < 7 + 4 ∧
  legacy.align (legacy.align 7 4) 4 = legacy.align 7 4.
Proof.
  destruct (align_properties 7 4) as (Hrange & _ & _ & Hidem);
    [unfold legacy.int_max; lia | unfold legacy.int_max; lia | vm_compute; discriminate |].
  split; [exact Hrange | exact Hidem].
Defined.

(** X17.  On a negative dividend that the divisor does not divide,
    [divceil] is one more than the ceiling: the division of C++ truncates
    towards zero, which is the ceiling already, and the rest adds one, so
    that the integer before [divceil a b] is still above [a / b]. *)
Theorem divceil_negative (a b : Z) :
  legacy.int_min ≤ a < 0 → 0 < b ≤ legacy.int_max → Z.rem a b ≠ 0 →
  legacy.divceil a b = Z.quot a b + 1 ∧
  a < (legacy.divceil a b - 1) * b.
Proof.
  intros Ha Hb Hrem.
  assert (Hqr := Z.quot_rem' a b).
  assert (Hr := Z.rem_bound_pos_neg a b ltac:(lia) ltac:(lia)).
  assert (Hq : a ≤ Z.quot a b ≤ 0).
  { assert (Hq0 : Z.quot a b ≤ 0).
    { destruct (Z.le_gt_cases (Z.quot a b) 0) as [|Hpos]; [done|].
      assert (b ≤ b * Z.quot a b) by nia. lia. }
    assert ((b - 1) * Z.quot a b ≤ 0) by nia.
    split; [lia|done]. }
  assert (Heq : legacy.divceil a b = Z.quot a b + 1).
  { unfold legacy.divceil, legacy.to_flag. rewrite decide_True by done.
    rewrite (wrap_small (Z.quot a b))
      by (unfold legacy.is_int, legacy.int_min, legacy.int_max in *; lia).
    apply wrap_small. unfold legacy.is_int, legacy.int_min, legacy.int_max in *. lia. }
  rewrite Heq. split; [done|nia].
Qed.

Lemma divceil_negative_witness :
  legacy.divceil (-7) 2 = -2 ∧ -7 < (legacy.divceil (-7) 2 - 1) * 2.
Proof.
  destruct (divceil_negative (-7) 2) as (Hval & Hover);
    [unfold legacy.int_min; lia | unfold legacy.int_max; lia | vm_compute; discriminate |].
  split; [exact Hval | exact Hover].
Defined.

(** ** The copy of a table to the device *)

Section DeviceCopy.
Lemma raw_set_shape (contents : table_type) (x y : nat) (v : score) :
  raw_shape contents → raw_shape (raw_set contents x y v).
Proof.
  intros [Hlen Hrows]. unfold raw_set. split; [by rewrite length_alter|].
  rewrite Forall_lookup in Hrows. apply Forall_lookup. intros k row Hk.
  destruct (decide (k = x)) as [->|Hne].
  - rewrite list_lookup_alter_eq in Hk.
    destruct (contents !! x) as [row'|] eqn:Hx; simpl in Hk; [|done].
    injection Hk as <-. rewrite length_insert. by apply (Hrows x).
  - rewrite list_lookup_alter_ne in Hk by done. by apply (Hrows k).
Qed.

Lemma raw_get_set (contents : table_type) (x y x' y' : nat) (v : score) :
  raw_shape contents → (x < 25)%nat → (y < 25)%nat →
  raw_get (raw_set contents x y v) x' y'
    = if decide (x = x' ∧ y = y') then v else raw_get contents x' y'.
Proof.
  intros [Hlen Hrows] Hx Hy. unfold raw_get, raw_set.
  destruct (lookup_lt_is_Some_2 contents x ltac:(lia)) as [row Hrow].
  rewrite Forall_lookup in Hrows. pose proof (Hrows x row Hrow) as Hrowlen.
  rewrite !nth_lookup. destruct (decide (x = x')) as [<-|Hne].
  - rewrite list_lookup_alter_eq, Hrow. simpl.
    destruct (decide (y = y')) as [<-|Hney].
    + rewrite decide_True by done. by rewrite list_lookup_insert_eq by lia.
    + rewrite decide_False by tauto. by rewrite list_lookup_insert_ne by done.
  - rewrite list_lookup_alter_ne by done. by rewrite decide_False by tauto.
Qed.

(** A 16-bit counter has room for the offsets of the copy. *)
Lemma uint16_room : (2048 ≤ 2 ^ 16)%nat.
Proof. change 2048%nat with (2 ^ 11)%nat. apply Nat.pow_le_mono_r; lia. Qed.

(** Two offsets that are congruent and differ are a stride apart. *)
Lemma congruent_step (c i stride : nat) :
  (0 < stride)%nat → (i < c)%nat → (c mod stride = i mod stride)%nat →
  (i + stride ≤ c)%nat.
Proof.
  intros Hs Hlt Hmod.
  pose proof (Nat.div_mod_eq c stride). pose proof (Nat.div_mod_eq i stride).
  assert (i / stride < c / stride)%nat by nia. nia.
Qed.

(** The loop of the thread [tid], from the offset [i] on: it ends, and it
    has copied the cells at the offsets of the thread from [i] on. *)
Lemma copy_cells_from (other : scoring_table) (stride tid : nat) :
  (0 < stride ≤ 1024)%nat →
  ∀ fuel i contents,
    raw_shape contents → (i < 2 ^ 16)%nat → (i mod stride = tid mod stride)%nat →
    (25 * 25 < fuel + i)%nat → (0 < fuel)%nat →
    ∃ result, copy_cells fuel i stride other contents = Some result ∧
      raw_shape result ∧
      ∀ x y, (x < 25)%nat → (y < 25)%nat →
        raw_get result x y
          = if decide (i ≤ 25 * x + y ∧ (25 * x + y) mod stride = tid mod stride)%nat
            then table_get other x y else raw_get contents x y.
Proof.
  intros Hstride. pose proof uint16_room as Hroom.
  induction fuel as [|fuel IH]; intros i contents Hshape Hi Hmod Hfuel Hpos;
    [lia|].
  cbn [copy_cells]. destruct (decide (i < 25 * 25)%nat) as [Hlt|Hge].
  - assert (Hnext : ((i + stride) mod 2 ^ 16 = i + stride)%nat)
      by (apply Nat.mod_small; lia).
    rewrite Hnext.
    pose proof (Nat.div_mod_eq i 25) as Hdm.
    pose proof (Nat.mod_upper_bound i 25 ltac:(lia)) as Hy.
    assert (Hx : (i / 25 < 25)%nat) by (apply Nat.Div0.div_lt_upper_bound; lia).
    destruct (IH (i + stride)%nat
                (raw_set contents (i / 25) (i mod 25)
                   (table_get other (i / 25) (i mod 25))))
      as (result & Hrun & Hres & Hcells).
    + by apply raw_set_shape.
    + lia.
    + rewrite <- Hmod. rewrite <- (Nat.Div0.add_mod_idemp_r i stride stride).
      by rewrite Nat.Div0.mod_same, Nat.add_0_r.
    + lia.
    + lia.
    + exists result. split; [done|]. split; [done|].
      intros x y Hx' Hy'. rewrite (Hcells x y Hx' Hy').
      rewrite raw_get_set by done.
      destruct (decide (i + stride ≤ 25 * x + y
                        ∧ (25 * x + y) mod stride = tid mod stride)%nat) as [[? ?]|Hno].
      * by rewrite decide_True by (split; [lia|done]).
      * destruct (decide (i / 25 = x ∧ i mod 25 = y)%nat) as [[<- <-]|Hne].
        -- rewrite decide_True; [done|]. split; [lia|]. by rewrite <- Hdm.
        -- destruct (decide (i ≤ 25 * x + y
                             ∧ (25 * x + y) mod stride = tid mod stride)%nat)
             as [[Hle Hc]|]; [|done].
           exfalso. destruct (decide (25 * x + y = i)%nat) as [Heq|Hneq].
           ++ apply Hne. subst i. split; symmetry;
                [apply (Nat.div_unique _ 25 x y) | apply (Nat.mod_unique _ 25 x y)];
                lia.
           ++ apply Hno. split; [|done].
              apply congruent_step; [lia|lia|congruence].
  - exists contents. split; [done|]. split; [done|].
    intros x y Hx Hy. by rewrite decide_False by lia.
Qed.

(** The threads of [threads], one after the other. *)
Lemma copy_threads (other : scoring_table) (stride : nat) (threads : list nat) :
  (0 < stride ≤ 1024)%nat → Forall (λ tid, tid < stride)%nat threads →
  ∀ contents, raw_shape contents →
    ∃ result,
      foldl (λ acc tid, acc ≫= copy_cells (25 * 25 + 1) (tid mod 2 ^ 16) stride other)
            (Some contents) threads = Some result ∧
      raw_shape result ∧
      ∀ x y, (x < 25)%nat → (y < 25)%nat →
        raw_get result x y
          = if decide (((25 * x + y) mod stride)%nat ∈ threads)
            then table_get other x y else raw_get contents x y.
Proof.
  intros Hstride. induction 1 as [|tid threads Htid _ IH]; intros contents Hshape.
  - exists contents. split; [done|]. split; [done|].
    intros x y _ _. rewrite decide_False; [done|]. apply not_elem_of_nil.
  - pose proof uint16_room as Hroom.
    assert (Hsmall : (tid mod 2 ^ 16 = tid)%nat) by (apply Nat.mod_small; lia).
    destruct (copy_cells_from other stride tid Hstride (25 * 25 + 1) tid contents)
      as (mid & Hmid & Hmidshape & Hmidcells); [done|lia|done|lia|lia|].
    destruct (IH mid Hmidshape) as (result & Hrun & Hres & Hcells).
    exists result. split; [|split; [done|]].
    + cbn [foldl mbind option_bind]. rewrite Hsmall, Hmid. exact Hrun.
    + intros x y Hx Hy. rewrite (Hcells x y Hx Hy), (Hmidcells x y Hx Hy).
      rewrite (Nat.mod_small tid stride) by lia.
      destruct (decide (((25 * x + y) mod stride)%nat ∈ threads)) as [Hin|Hnin].
      * rewrite decide_True; [done|]. by right.
      * destruct (decide ((25 * x + y) mod stride = tid)%nat) as [Heq|Hneq].
        -- rewrite decide_True.
           ++ rewrite decide_True; [done|]. rewrite Heq. left.
           ++ split; [|done]. rewrite <- Heq. apply Nat.Div0.mod_le.
        -- rewrite decide_False by tauto.
           rewrite decide_False; [done|].
           intros [?|?]%elem_of_cons; done.
Qed.
End DeviceCopy.

(** X18.  In a block of at most 1024 threads, the loop of every thread ends
    and copies the cells at the offsets [threadIdx.x],
    [threadIdx.x + blockDim.x], ... below 625, those whose rest modulo the
    number of threads is the thread, and leaves every other cell as it was.
    The copy made by all the threads, in whatever order they run, has the
    penalty of the table copied and gives the same score as that table at
    every row and column below 25. *)
Theorem device_table_identical
  (threads : list nat) (stride : nat) (ptr : table_type) (other : scoring_table) :
  (0 < stride ≤ 1024)%nat → threads ≡ₚ seq 0 stride → raw_shape ptr →
  (∀ c tid, (tid < stride)%nat →
     (c mod stride = tid)%nat ↔ ∃ k, (c = tid + k * stride)%nat) ∧
  (∀ tid contents, (tid < stride)%nat → raw_shape contents →
     ∃ result,
       copy_cells (25 * 25 + 1) (tid mod 2 ^ 16) stride other contents
         = Some result ∧
       raw_shape result ∧
       ∀ x y, (x < 25)%nat → (y < 25)%nat →
         raw_get result x y
           = if decide ((25 * x + y) mod stride = tid)%nat
             then table_get other x y else raw_get contents x y) ∧
  (∃ copy, device_table threads stride ptr other = Some copy ∧
     penalty copy = penalty other ∧
     ∀ x y, (x < 25)%nat → (y < 25)%nat →
       table_get copy x y = table_get other x y).
Proof.
  intros Hstride Hperm Hshape. split_and!.
  - intros c tid Htid. split.
    + intros <-. exists (c / stride)%nat.
      pose proof (Nat.div_mod_eq c stride). lia.
    + intros [k ->]. rewrite Nat.Div0.mod_add. by apply Nat.mod_small.
  - intros tid contents Htid Hcontents.
    pose proof uint16_room as Hroom.
    rewrite (Nat.mod_small tid (2 ^ 16)) by lia.
    destruct (copy_cells_from other stride tid Hstride (25 * 25 + 1) tid contents)
      as (result & Hrun & Hres & Hcells); [done|lia|done|lia|lia|].
    exists result. split; [done|]. split; [done|].
    intros x y Hx Hy. rewrite (Hcells x y Hx Hy).
    rewrite (Nat.mod_small tid stride) by lia.
    destruct (decide ((25 * x + y) mod stride = tid)%nat) as [Heq|Hne].
    + rewrite decide_True; [done|]. split; [|done].
      rewrite <- Heq. apply Nat.Div0.mod_le.
    + by rewrite decide_False by tauto.
  - destruct (copy_threads other stride threads Hstride) with (contents := ptr)
      as (result & Hrun & _ & Hcells); [|done|].
    { rewrite Forall_forall. intros tid Htid. rewrite Hperm in Htid.
      apply elem_of_seq in Htid. lia. }
    exists (ScoringTable result (penalty other)). split; [|split; [done|]].
    + unfold device_table. by rewrite Hrun.
    + intros x y Hx Hy. change (raw_get result x y = table_get other x y).
      rewrite (Hcells x y Hx Hy), decide_True; [done|].
      rewrite Hperm. apply elem_of_seq.
      pose proof (Nat.mod_upper_bound (25 * x + y)%nat stride). lia.
Qed.

Lemma device_table_identical_witness :
  ∃ copy, device_table [2; 0; 1]%nat 3 (replicate 25 (replicate 25 0)) blosum62
            = Some copy ∧
    penalty copy = 4 ∧
    ∀ x y, (x < 25)%nat → (y < 25)%nat →
      table_get copy x y = table_get blosum62 x y.
Proof.
  refine (proj2 (proj2 (device_table_identical [2; 0; 1]%nat 3
                          (replicate 25 (replicate 25 0)) blosum62 _ _ _))).
  - lia.
  - exact (Permutation_cons_append [0; 1]%nat 2%nat).
  - split; [reflexivity|]. repeat constructor.
Defined.

(** ** The loader of databases *)

(** X19.  [factory] returns the parser of FASTA files for the extensions
    ["fa"] and ["fasta"] and throws the unknown-parser exception for every
    other extension; [validate] accepts a file exactly when [factory]
    returns a parser for its extension. *)
Theorem factory_known_extensions (extension : string → string) (ext filename : string) :
  (ext = "fa" ∨ ext = "fasta" → factory ext = Return parser_fasta) ∧
  (ext ≠ "fa" → ext ≠ "fasta" →
     factory ext = Throw (Exception ("unknown database parser '" +:+ ext +:+ "'"))) ∧
  (validate extension filename = true
     ↔ ∃ f, factory (extension filename) = Return f).
Proof.
  split_and!.
  - by intros [-> | ->].
  - intros Hfa Hfasta. unfold factory, dispatcher_lookup, parser_dispatcher.
    cbn [list_to_map foldr fst snd uncurry].
    rewrite !lookup_insert_ne by done. by rewrite lookup_empty.
  - unfold validate, dispatcher_has, factory, dispatcher_lookup.
    rewrite bool_decide_eq_true.
    destruct (parser_dispatcher !! extension filename) as [f|]; split.
    + intros _. by eexists.
    + intros _. by eexists.
    + by intros [? ?].
    + by intros [? ?].
Qed.

Lemma factory_known_extensions_witness :
  factory "fasta" = Return parser_fasta ∧
  factory "txt" = Throw (Exception "unknown database parser 'txt'").
Proof.
  destruct (factory_known_extensions (λ s, s) "fasta" "") as (Hknown & _ & _).
  destruct (factory_known_extensions (λ s, s) "txt" "") as (_ & Hunknown & _).
  split; [apply Hknown; by right | apply Hunknown; discriminate].
Defined.

(** ** A sequence against itself *)

Section SelfScore.
Import needleman.
Local Arguments nw_cell : simpl never.

Lemma self_score_snoc (table : scoring_table) (s : sequence) (c : symbol) :
  self_score table (s ++ [c])
    = self_score table s + table_get table (code c) (code c).
Proof.
  induction s as [|d s IH]; simpl; [lia|]. rewrite IH. lia.
Qed.

Lemma nw_cell_diagonal (s : sequence) (table : scoring_table) (i : nat) :
  (i ≤ length s)%nat →
  self_score table (take i s) ≤ nw_cell s s table i i.
Proof.
  induction i as [|i IH]; intros Hi; [done|].
  destruct (lookup_lt_is_Some_2 s i ltac:(lia)) as [c Hc].
  rewrite (take_S_r s i c Hc), self_score_snoc, nw_cell_inner.
  unfold subst. rewrite (nth_lookup_symbol s i c Hc).
  specialize (IH ltac:(lia)). lia.
Qed.
End SelfScore.

(** X20.  A sequence without padding symbols scores against itself at
    least the sum of the scores of its symbols against themselves. *)
Theorem align_pair_self_score (s : sequence) (table : scoring_table) (v : score) :
  needleman.unpadded s →
  needleman.align_pair s s table = Some v →
  self_score table s ≤ v.
Proof.
  intros Hs. rewrite align_pair_unpadded by done. intros [= <-].
  rewrite <- (firstn_all s) at 1. by apply nw_cell_diagonal.
Qed.

Lemma align_pair_self_score_witness :
  needleman.align_pair [sA; sA; sA; sA] [sA; sA; sA; sA] blosum62 = Some 16 ∧
  self_score blosum62 [sA; sA; sA; sA] ≤ 16.
Proof.
  split; [reflexivity|].
  apply (align_pair_self_score [sA; sA; sA; sA] blosum62 16);
    [repeat constructor; discriminate | reflexivity].
Defined.
